(** * go-github-codeowners: ownership rules resolved into GitHub users

    A shallow embedding of [codeowners/codeowners.go].  Go strings are byte
    strings and are kept as [string]; a Go slice that the code compares with
    [nil] is an [option (list _)], [None] being the nil slice; the goroutines,
    the two channels and the wait group of [Match] are a transition system
    whose schedules are lists of actions. *)

From Stdlib Require Import ZArith NArith Ascii String.
From stdpp Require Import base list strings.

Local Open Scope string_scope.
Local Open Scope list_scope.
Local Open Scope Z_scope.

(** ** The [strings] package, on byte strings *)

Module strings.

(** [strings.HasPrefix s prefix] *)
Definition HasPrefix (s prefix : string) : bool := String.prefix prefix s.

(** Offset of the first occurrence of [substr] in [s], if there is one. *)
Fixpoint find_from (s substr : string) : option nat :=
  if String.prefix substr s then Some 0%nat
  else match s with
       | EmptyString => None
       | String _ s' => S <$> find_from s' substr
       end.

(** [strings.Index s substr]: the offset of the first occurrence, or -1. *)
Definition Index (s substr : string) : Z :=
  match find_from s substr with
  | Some n => Z.of_nat n
  | None => -1
  end.

(** [strings.Contains s substr], which is [Index(s, substr) >= 0]. *)
Definition Contains (s substr : string) : bool := 0 <=? Index s substr.

(** [strings.Split s sep] for a separator of one byte. *)
Fixpoint split_byte (sep : ascii) (cur : string) (s : string) : list string :=
  match s with
  | EmptyString => [String.rev cur]
  | String c s' =>
      if Ascii.eqb c sep then String.rev cur :: split_byte sep EmptyString s'
      else split_byte sep (String c cur) s'
  end.

Definition Split (s : string) (sep : ascii) : list string :=
  split_byte sep EmptyString s.

(** [utf8.EncodeRune] for a code point below U+10000: one byte below
    U+0080, two below U+0800, three otherwise. *)
Definition EncodeRune (r : N) : string :=
  let byte (n : N) : ascii := ascii_of_N n in
  let cont (n : N) : ascii := byte (N.lor 0x80 (N.land n 0x3F)) in
  if (r <? 0x80)%N then String (byte r) ""
  else if (r <? 0x800)%N then
    String (byte (N.lor 0xC0 (N.shiftr r 6))) (String (cont r) "")
  else
    String (byte (N.lor 0xE0 (N.shiftr r 12)))
      (String (cont (N.shiftr r 6)) (String (cont r) "")).

(** The code points for which [unicode.IsSpace] holds, which are those of
    the table [unicode.White_Space]: tab, line feed, vertical tab, form
    feed, carriage return, space, U+0085 (NEL), U+00A0 (NBSP), U+1680,
    U+2000 to U+200A, U+2028, U+2029, U+202F, U+205F and U+3000. *)
Definition White_Space : list N :=
  [0x09; 0x0A; 0x0B; 0x0C; 0x0D; 0x20; 0x85; 0xA0; 0x1680;
   0x2000; 0x2001; 0x2002; 0x2003; 0x2004; 0x2005; 0x2006; 0x2007;
   0x2008; 0x2009; 0x200A; 0x2028; 0x2029; 0x202F; 0x205F; 0x3000]%N.

(** The white space as it stands in a Go string, which is UTF-8. *)
Definition spaces : list string := EncodeRune <$> White_Space.

(** The number of bytes of the white space that [s] begins with, and 0
    when [s] begins with none.  The first byte of a white space is below
    0x80 or is 0xC2, 0xE1, 0xE2 or 0xE3, which is never a later byte of a
    character: so white space stands at the same places for the decoding
    by runes of [range], which goes on by one byte after a byte that is
    not valid UTF-8. *)
Definition space_width (s : string) : nat :=
  match List.find (fun p => String.prefix p s) spaces with
  | Some p => String.length p
  | None => 0
  end.

(** The field that ends, if one has begun; [cur] holds it last byte
    first. *)
Definition emit (cur : string) : list string :=
  match cur with
  | EmptyString => []
  | _ => [String.rev cur]
  end.

(** [strings.Fields s]: the maximal runs of characters that are not white
    space, as defined by [unicode.IsSpace].  [cur] holds the run being read;
    [inside] counts the bytes that are left of a white space of several
    bytes. *)
Fixpoint fields_go (cur : string) (inside : nat) (s : string)
    : list string :=
  match s with
  | EmptyString => emit cur
  | String c s' =>
      match inside with
      | S n => fields_go cur n s'
      | O =>
          match space_width (String c s') with
          | O => fields_go (String c cur) 0 s'
          | S n => emit cur ++ fields_go EmptyString n s'
          end
      end
  end.

Definition Fields (s : string) : list string :=
  fields_go EmptyString 0 s.

(** [strings.Join elems sep] *)
Fixpoint Join (elems : list string) (sep : string) : string :=
  match elems with
  | [] => ""
  | [e] => e
  | e :: rest => e +:+ sep +:+ Join rest sep
  end.

End strings.

(** Slice expressions on a string.  Go panics when the bounds are out of
    range, which is [None] here. *)
Definition slice (s : string) (lo hi : Z) : option string :=
  if (0 <=? lo) && (lo <=? hi) && (hi <=? Z.of_nat (String.length s))
  then Some (substring (Z.to_nat lo) (Z.to_nat (hi - lo)) s)
  else None.

Definition slice_from (s : string) (lo : Z) : option string :=
  slice s lo (Z.of_nat (String.length s)).

(** ** Data *)

(** An [error] value.  [errors.New] makes an [errorString]; the errors of the
    imported packages (doublestar, net/mail, go-github, context) are kept
    apart from those, by package and message. *)
Inductive error : Type :=
| errorString (s : string)
| libError (pkg msg : string).

Definition errors_New (s : string) : error := errorString s.

(** [github.User], by the three fields the users of this package read; a nil
    pointer field is [None]. *)
Record User : Type := mkUser {
  Login : option string;
  Name : option string;
  Email : option string
}.

(** [github.Team], by the two fields [expandteam] dereferences, taken as set. *)
Record Team : Type := mkTeam {
  ID : Z;
  Slug : string
}.

(** [mail.Address] *)
Record Address : Type := mkAddress {
  addr_Name : string;
  addr_Address : string
}.

(** [github.RepositoryContent], by what its [GetContent] method returns. *)
Record RepositoryContent : Type := mkContent {
  GetContent : string * option error
}.

(** The services of [github.Client] that the package calls.  Each takes the
    context, here the bit that says whether [ctx.Done()] has fired.
    [Organizations_ListTeamMembers] gives the members by the [Login] that
    [expandteam] dereferences. *)
Record Client : Type := mkClient {
  Repositories_GetContents :
    bool -> string -> string -> string -> error + RepositoryContent;
  Users_Get : bool -> string -> error + User;
  Organizations_ListTeams : bool -> string -> error + list Team;
  Organizations_ListTeamMembers : bool -> Z -> error + list string
}.

(** this struct holds a single line from a codeowners file *)
Record codeOwner : Type := mkCodeOwner {
  path : string;
  owners : option (list string)
}.

(** this struct holds the description of a whole codeowners file *)
Record codeOwners : Type := mkCodeOwners {
  owner : string;
  repo : string;
  patterns : list codeOwner
}.

(** What goes through the channels of [comms]: a user on [data], an error on
    [err]. *)
Inductive msg : Type :=
| Data (u : User)
| Err (e : error).

(** The four functions that [Match] runs as goroutines, with their argument. *)
Inductive task : Type :=
| go_expandowners (ownertext : string)
| go_expandteam (fullteam : string)
| go_fetchuser (name : string)
| go_finduseremail (email : string).

(** A call to the remote service. *)
Inductive call : Type :=
| call_ListTeams (org : string)
| call_ListTeamMembers (id : Z)
| call_UsersGet (name : string).

(** What one goroutine does from its start to its send, or to its end when it
    sends nothing: the remote calls it makes, the goroutines it starts (each
    after [ch.wait.Add(1)]), and the message it then offers on a channel. *)
Record effect : Type := mkEffect {
  eff_calls : list call;
  eff_spawn : list task;
  eff_send : option msg
}.

(** A goroutine is running its body, blocked in a send, or left with its
    deferred [ch.wait.Done()]. *)
Inductive goroutine : Type :=
| Run (t : task)
| Send (m : msg)
| Exit.

(** The anonymous goroutine of [Match]: [ch.wait.Wait()], [close(ch.data)],
    [close(ch.err)].  It is [Unstarted] when [Match] returns before its
    [go func()]. *)
Inductive closer : Type :=
| Unstarted
| Waiting
| Woken
| ClosedData
| ClosedBoth.

(** The case that the [select] of [Match] takes; a receive names the sending
    goroutine by its place in the pool. *)
Inductive select_case : Type :=
| on_done
| on_err (i : nat)
| on_err_closed
| on_data (i : nat)
| on_data_closed.

(** One step of the program. *)
Inductive action : Type :=
| a_cancel
| a_run (i : nat)
| a_exit (i : nat)
| a_send_closed (i : nat)
| a_wake
| a_close_data
| a_close_err
| a_loop (c : select_case).

(** The program while [Match] runs. *)
Record state : Type := mkState {
  ctx_done : bool;
  pool : list goroutine;
  wait : nat;
  closing : closer;
  users : list User;
  error_slice : list error;
  err_closed : bool;
  data_closed : bool;
  calls : list call;
  returned : option (list User * list error);
  panicked : bool
}.

#[global] Instance error_eq_dec : EqDecision error.
Proof. solve_decision. Defined.
#[global] Instance User_eq_dec : EqDecision User.
Proof. solve_decision. Defined.
#[global] Instance msg_eq_dec : EqDecision msg.
Proof. solve_decision. Defined.
#[global] Instance task_eq_dec : EqDecision task.
Proof. solve_decision. Defined.

(** Field updates of [state]. *)
Definition set_ctx_done (b : bool) (s : state) : state :=
  mkState b (pool s) (wait s) (closing s) (users s) (error_slice s)
    (err_closed s) (data_closed s) (calls s) (returned s) (panicked s).
Definition set_pool (p : list goroutine) (n : nat) (s : state) : state :=
  mkState (ctx_done s) p n (closing s) (users s) (error_slice s)
    (err_closed s) (data_closed s) (calls s) (returned s) (panicked s).
Definition set_closing (c : closer) (s : state) : state :=
  mkState (ctx_done s) (pool s) (wait s) c (users s) (error_slice s)
    (err_closed s) (data_closed s) (calls s) (returned s) (panicked s).
Definition set_users (us : list User) (s : state) : state :=
  mkState (ctx_done s) (pool s) (wait s) (closing s) us (error_slice s)
    (err_closed s) (data_closed s) (calls s) (returned s) (panicked s).
Definition set_error_slice (es : list error) (s : state) : state :=
  mkState (ctx_done s) (pool s) (wait s) (closing s) (users s) es
    (err_closed s) (data_closed s) (calls s) (returned s) (panicked s).
Definition set_err_closed (b : bool) (s : state) : state :=
  mkState (ctx_done s) (pool s) (wait s) (closing s) (users s) (error_slice s)
    b (data_closed s) (calls s) (returned s) (panicked s).
Definition set_data_closed (b : bool) (s : state) : state :=
  mkState (ctx_done s) (pool s) (wait s) (closing s) (users s) (error_slice s)
    (err_closed s) b (calls s) (returned s) (panicked s).
Definition set_calls (cs : list call) (s : state) : state :=
  mkState (ctx_done s) (pool s) (wait s) (closing s) (users s) (error_slice s)
    (err_closed s) (data_closed s) cs (returned s) (panicked s).
Definition set_returned (r : list User * list error) (s : state) : state :=
  mkState (ctx_done s) (pool s) (wait s) (closing s) (users s) (error_slice s)
    (err_closed s) (data_closed s) (calls s) (Some r) (panicked s).
Definition set_panicked (s : state) : state :=
  mkState (ctx_done s) (pool s) (wait s) (closing s) (users s) (error_slice s)
    (err_closed s) (data_closed s) (calls s) (returned s) true.

(** [close(ch.data)] has run; [close(ch.err)] has run. *)
Definition data_chan_closed (c : closer) : bool :=
  match c with ClosedData | ClosedBoth => true | _ => false end.
Definition err_chan_closed (c : closer) : bool :=
  match c with ClosedBoth => true | _ => false end.

(** What can be observed of a run: a call to the remote service, a message
    on a channel. *)
Definition event : Type := call + msg.

(** The calls, the users and the errors among events, in their order. *)
Definition calls_of (evs : list event) : list call :=
  omap (fun ev => match ev with inl c => Some c | inr _ => None end) evs.
Definition users_of (evs : list event) : list User :=
  omap (fun ev => match ev with inr (Data u) => Some u | _ => None end) evs.
Definition errors_of (evs : list event) : list error :=
  omap (fun ev => match ev with inr (Err e) => Some e | _ => None end) evs.

(** How deep a goroutine can start others: [expandowners] starts
    [expandteam], which starts [fetchuser]. *)
Definition level (t : task) : nat :=
  match t with
  | go_expandowners _ => 2
  | go_expandteam _ => 1
  | go_fetchuser _ | go_finduseremail _ => 0
  end.

(** format a single line of a codeowners file *)
Definition codeOwner_String (co : codeOwner) : string :=
  path co +:+ " " +:+ strings.Join (default [] (owners co)) " ".

(** format a codeOwners struct back into a string *)
Definition codeOwners_String (co : codeOwners) : string :=
  strings.Join (codeOwner_String <$> patterns co) (String "010" "").

(** ** Stand-ins for the imported packages

    The package is verified for every [github.Client], every
    [doublestar.Match] and every [mail.ParseAddress].  The definitions of
    this part are what the statements are applied to on concrete inputs. *)

(** [s] cut at the first byte [c]: what is before it and what is after. *)
Fixpoint cut (c : ascii) (s : string) : option (string * string) :=
  match s with
  | EmptyString => None
  | String a s' =>
      if Ascii.eqb a c then Some (EmptyString, s')
      else match cut c s' with
           | Some (l, r) => Some (String a l, r)
           | None => None
           end
  end.

Module doublestar.

Definition ErrBadPattern : error := libError "path" "syntax error in pattern".

(** A piece of a pattern component: a byte, [?], [*], or a class. *)
Inductive token : Type :=
| lit (c : ascii)
| any
| star
| class (negated : bool) (ranges : list (ascii * ascii)).

(** A class being read: what is read so far, a byte that may start a
    range, and whether a dash follows that byte. *)
Record bracket : Type := mkBracket {
  negated : bool;
  ranges : list (ascii * ascii);
  low : option ascii;
  dash : bool
}.

Definition close (b : bracket) : option token :=
  let rs := (ranges b
             ++ match low b with Some c => [(c, c)] | None => [] end
             ++ (if dash b then [("-"%char, "-"%char)] else []))%list in
  match rs with
  | [] => None
  | _ => Some (class (negated b) rs)
  end.

(** The pieces of a component; [None] for a class left open or empty. *)
Fixpoint tokens (p : list ascii) (b : option bracket) (first : bool)
    : option (list token) :=
  match p, b with
  | [], None => Some []
  | [], Some _ => None
  | c :: rest, None =>
      if Ascii.eqb c "[" then
        tokens rest (Some (mkBracket false [] None false)) true
      else if Ascii.eqb c "*" then cons star <$> tokens rest None false
      else if Ascii.eqb c "?" then cons any <$> tokens rest None false
      else cons (lit c) <$> tokens rest None false
  | c :: rest, Some br =>
      if first && (Ascii.eqb c "^" || Ascii.eqb c "!") then
        tokens rest (Some (mkBracket true [] None false)) false
      else if Ascii.eqb c "]" then
        match close br with
        | Some t => cons t <$> tokens rest None false
        | None => None
        end
      else
        match low br, dash br with
        | Some lo, true =>
            tokens rest
              (Some (mkBracket (negated br) (ranges br ++ [(lo, c)])%list
                       None false)) false
        | Some lo, false =>
            if Ascii.eqb c "-" then
              tokens rest
                (Some (mkBracket (negated br) (ranges br) (Some lo) true))
                false
            else
              tokens rest
                (Some (mkBracket (negated br)
                         (ranges br ++ [(lo, lo)])%list (Some c) false))
                false
        | None, _ =>
            tokens rest
              (Some (mkBracket (negated br) (ranges br) (Some c) false))
              false
        end
  end.

Definition in_range (c : ascii) (r : ascii * ascii) : bool :=
  (nat_of_ascii (fst r) <=? nat_of_ascii c)%nat
  && (nat_of_ascii c <=? nat_of_ascii (snd r))%nat.

Definition accepts (t : token) (c : ascii) : bool :=
  match t with
  | lit a => Ascii.eqb a c
  | any => true
  | star => false
  | class neg rs => xorb neg (existsb (in_range c) rs)
  end.

(** A component of the name against the pieces of a pattern component. *)
Fixpoint matchComponent (ts : list token) (n : list ascii) : bool :=
  match ts with
  | [] => match n with [] => true | _ => false end
  | star :: ts' =>
      (fix try (n : list ascii) : bool :=
         matchComponent ts' n
         || match n with [] => false | _ :: n' => try n' end) n
  | t :: ts' =>
      match n with
      | [] => false
      | c :: n' => accepts t c && matchComponent ts' n'
      end
  end.

(** The components of the name against those of the pattern, [None] being
    the component [**], which stands for any number of components. *)
Fixpoint doMatching (ps : list (option (list token))) (ns : list string)
    : bool :=
  match ps with
  | [] => match ns with [] => true | _ => false end
  | None :: ps' =>
      match ps' with
      | [] => true
      | _ =>
          (fix try (ns : list string) : bool :=
             doMatching ps' ns
             || match ns with [] => false | _ :: ns' => try ns' end) ns
      end
  | Some ts :: ps' =>
      match ns with
      | [] => false
      | n :: ns' =>
          matchComponent ts (list_ascii_of_string n) && doMatching ps' ns'
      end
  end.

(** A pattern component, read; the outer [None] is a syntax error. *)
Definition component (p : string) : option (option (list token)) :=
  if String.eqb p "**" then Some None
  else Some <$> tokens (list_ascii_of_string p) None false.

(** A glob matcher in the manner of [doublestar.Match]: components between
    slashes, [**] for any number of them, [*], [?] and bracket classes
    inside a component; braces and backslashes are read as plain bytes. *)
Definition Match (pattern name : string) : bool * option error :=
  match mapM component (strings.Split pattern "/"%char) with
  | None => (false, Some ErrBadPattern)
  | Some ps => (doMatching ps (strings.Split name "/"%char), None)
  end.

End doublestar.

Module mail.

(** [isAtext(r, true)] on a byte below 0x80: a visible character that is
    none of the specials; the dot counts. *)
Definition atext (c : ascii) : bool :=
  let n := nat_of_ascii c in
  (33 <=? n)%nat && (n <=? 126)%nat
  && negb (existsb (Ascii.eqb c)
             (list_ascii_of_string "()<>[]:;@\,"))
  && negb (n =? 34)%nat.

(** [consumeAtom(true, _)]: the text that [s] begins with, and what
    follows it. *)
Fixpoint atom (s : string) : string * string :=
  match s with
  | EmptyString => (EmptyString, EmptyString)
  | String c s' =>
      if atext c then let '(a, r) := atom s' in (String c a, r)
      else (EmptyString, s)
  end.

(** What [consumeAtom] accepts when it is not permissive: some text, with
    no dot at its ends and no two dots in a row. *)
Definition dot_atom (a : string) : bool :=
  negb (String.eqb a "")
  && negb (strings.HasPrefix a ".")
  && negb (strings.Contains a "..")
  && negb (strings.HasPrefix (String.rev a) ".").

(** [consumeAddrSpec], for a local part and a domain that are dot-atoms:
    the address, and what follows it. *)
Definition addr_spec (s : string) : option (string * string) :=
  let '(local, r) := atom s in
  if dot_atom local then
    match r with
    | String c r' =>
        if Ascii.eqb c "@" then
          let '(domain, r'') := atom r' in
          if dot_atom domain then Some (local +:+ "@" +:+ domain, r'')
          else None
        else None
    | EmptyString => None
    end
  else None.

(** [mail.ParseAddress] on an address without white space, of the form
    [local@domain], [<local@domain>] or [name<local@domain>], the name
    being one atom: as the package does, [addr_spec] is tried first and
    the form in angle brackets after it.  The package also reads quoted
    strings, comments, groups, domain literals, encoded words and bytes
    from 0x80 on; these are answered with an error here. *)
Definition ParseAddress (address : string) : error + Address :=
  match addr_spec address with
  | Some (spec, rest) =>
      if String.eqb rest "" then inr (mkAddress "" spec)
      else inl (libError "mail" "expected single address")
  | None =>
      let '(name, r) := atom address in
      match r with
      | String c r' =>
          if Ascii.eqb c "<" then
            match addr_spec r' with
            | Some (spec, rest) =>
                if String.eqb rest ">" then inr (mkAddress name spec)
                else if strings.HasPrefix rest ">"
                then inl (libError "mail" "expected single address")
                else inl (libError "mail" "unclosed angle-addr")
            | None => inl (libError "mail" "missing @ in addr-spec")
            end
          else inl (libError "mail" "missing '@' or angle-addr")
      | EmptyString => inl (libError "mail" "missing '@' or angle-addr")
      end
  end.

End mail.

(** A service in the manner of the handlers of the test file: the
    organisation [example] with the teams 72 and 55, the members of team 72,
    the users [juan] and [joe], and a CODEOWNERS file with the given content
    at the root of the repository [example/repo]. *)
Module testdata.

Definition not_found : error := libError "github" "404 Not Found".
Definition canceled : error := libError "context" "context deadline exceeded".

Definition juan : User := mkUser (Some "juan") (Some "Juan") None.
Definition joe : User := mkUser (Some "joe") (Some "Joe") None.

Definition nl : string := String "010" "".

(** Files in the manner of the fixtures that the tests name. *)
Definition simple : string := "* @juan" +:+ nl.
Definition two : string := "* @juan" +:+ nl +:+ "test/** @joe" +:+ nl.
Definition team : string := "* @example/team" +:+ nl.
Definition email : string := "* everyone@example.com" +:+ nl.
Definition invalid_entry : string := "* @juan not-valid" +:+ nl.
Definition commented : string :=
  "# owners of everything" +:+ nl +:+ "* @juan" +:+ nl.
Definition malformed : string := "[ @juan" +:+ nl.

Definition testclient (content : string) : Client :=
  mkClient
    (fun ctx owner repo path0 =>
       if ctx then inl canceled
       else if String.eqb owner "example" && String.eqb repo "repo"
               && String.eqb path0 "CODEOWNERS"
       then inr (mkContent (content, None))
       else inl not_found)
    (fun ctx name =>
       if ctx then inl canceled
       else if String.eqb name "juan" then inr juan
       else if String.eqb name "joe" then inr joe
       else inl not_found)
    (fun ctx org =>
       if ctx then inl canceled
       else if String.eqb org "example"
       then inr [mkTeam 72 "team"; mkTeam 55 "long"]
       else inl not_found)
    (fun ctx id =>
       if ctx then inl canceled
       else if id =? 72 then inr ["juan"; "joe"]
       else inl not_found).

(** A service whose one team has the [ID] 0. *)
Definition zeroclient : Client :=
  mkClient
    (fun _ _ _ _ => inl not_found)
    (fun _ name => inr (mkUser (Some name) None None))
    (fun _ _ => inr [mkTeam 0 "team"])
    (fun _ _ => inr ["alice"; "bob"]).

(** The service of [testclient], with the file under [docs/]. *)
Definition docsclient (content : string) : Client :=
  mkClient
    (fun ctx owner repo path0 =>
       if ctx then inl canceled
       else if String.eqb owner "example" && String.eqb repo "repo"
               && String.eqb path0 "docs/CODEOWNERS"
       then inr (mkContent (content, None))
       else inl not_found)
    (Users_Get (testclient content))
    (Organizations_ListTeams (testclient content))
    (Organizations_ListTeamMembers (testclient content)).

(** A service whose one team has a member that it does not know. *)
Definition ghostclient : Client :=
  mkClient
    (fun _ _ _ _ => inl not_found)
    (fun _ name => if String.eqb name "juan" then inr juan
                   else inl not_found)
    (fun _ _ => inr [mkTeam 72 "team"])
    (fun _ _ => inr ["ghost"; "juan"]).

End testdata.

(** ** The package *)

Section Codeowners.

(** The package-level [client], and the two library functions that the
    package calls: [doublestar.Match] and [mail.ParseAddress]. *)
Variable client : Client.
Variable doublestar_Match : string -> string -> bool * option error.
Variable mail_ParseAddress : string -> error + Address.

(** this will attempt to get the CODEOWNERS file from the various locations
    in the github repo; [err] is the error of the last attempt. *)
Fixpoint fetch_files (ctx : bool) (owner repo : string)
    (files : list string) (err : option error) : string * option error :=
  match files with
  | [] => ("", err)
  | filepath :: rest =>
      match Repositories_GetContents client ctx owner repo
              (filepath +:+ "CODEOWNERS") with
      | inl e => fetch_files ctx owner repo rest (Some e)
      | inr content => GetContent content
      end
  end.

Definition fetch (ctx : bool) (owner repo : string) : string * option error :=
  fetch_files ctx owner repo [""; "docs/"; ".github/"] None.

(** The body of the loop of [Get] over the lines of the file. *)
Definition add_line (patterns : list codeOwner) (line : string)
    : list codeOwner :=
  let words := strings.Fields line in
  if (1 <? length words)%nat then
    match words with
    | w0 :: rest =>
        let w0 := if String.eqb w0 "*" then "**" else w0 in
        patterns ++ [mkCodeOwner w0 (Some rest)]
    | [] => patterns
    end
  else patterns.

(** Get is the "entrypoint" where a codeOwners struct is returned for
    calling Match on *)
Definition Get (ctx : bool) (owner repo : string)
    : codeOwners * option error :=
  let obj := mkCodeOwners owner repo [] in
  match fetch ctx owner repo with
  | (_, Some err) => (obj, Some err)
  | (content, None) =>
      (mkCodeOwners owner repo
         (fold_left add_line (strings.Split content "010"%char) []),
       None)
  end.

(** takes a username and asks the github api for full information about a
    user which is sent through the data channel *)
Definition fetchuser (name : string) (ctx : bool) : option effect :=
  match Users_Get client ctx name with
  | inl err => Some (mkEffect [call_UsersGet name] [] (Some (Err err)))
  | inr user => Some (mkEffect [call_UsersGet name] [] (Some (Data user)))
  end.

(** takes an email string, parses it out to ensure validity and then
    constructs a github.User struct to send back down the data channel *)
Definition finduseremail (email : string) (ctx : bool) : option effect :=
  match mail_ParseAddress email with
  | inl err => Some (mkEffect [] [] (Some (Err err)))
  | inr e =>
      Some (mkEffect [] []
              (Some (Data (mkUser None None (Some (addr_Address e))))))
  end.

(** The loop of [expandteam] over the teams: the [ID] of the first team
    with the slug, and the zero of [var teamid int64] when there is none. *)
Fixpoint find_teamid (teamname : string) (teams : list Team) : Z :=
  match teams with
  | [] => 0
  | team :: rest =>
      if String.eqb teamname (Slug team) then ID team
      else find_teamid teamname rest
  end.

(** this takes a string team name in the form of org/slug and sends the
    github users back through the data channel *)
Definition expandteam (fullteam : string) (ctx : bool) : option effect :=
  let split := strings.Index fullteam "/" in
  match slice fullteam 1 split with
  | None => None
  | Some org =>
      match Organizations_ListTeams client ctx org with
      | inl err => Some (mkEffect [call_ListTeams org] [] (Some (Err err)))
      | inr teams =>
          match slice_from fullteam (split + 1) with
          | None => None
          | Some teamname =>
              let teamid := find_teamid teamname teams in
              if teamid =? 0 then
                Some (mkEffect [call_ListTeams org] []
                        (Some (Err (errors_New
                           ("Failed to find team matching " +:+ teamname)))))
              else
                match Organizations_ListTeamMembers client ctx teamid with
                | inl err =>
                    Some (mkEffect
                            [call_ListTeams org; call_ListTeamMembers teamid]
                            [] (Some (Err err)))
                | inr members =>
                    Some (mkEffect
                            [call_ListTeams org; call_ListTeamMembers teamid]
                            (go_fetchuser <$> members) None)
                end
          end
      end
  end.

(** this takes an individual owner (team, email or login) and sends
    github.User objects to the data channel.  [fmt.Sprintf] is given no
    verb for [ownertext] and appends it as an EXTRA argument. *)
Definition expandowners (ownertext : string) (ctx : bool) : option effect :=
  if strings.HasPrefix ownertext "@" && strings.Contains ownertext "/" then
    Some (mkEffect [] [go_expandteam ownertext] None)
  else if strings.HasPrefix ownertext "@" then
    match slice_from ownertext 1 with
    | None => None
    | Some name => Some (mkEffect [] [go_fetchuser name] None)
    end
  else if strings.Contains ownertext "@" then
    Some (mkEffect [] [go_finduseremail ownertext] None)
  else
    Some (mkEffect [] []
            (Some (Err (errors_New
               ("Do not understand user specification %!(EXTRA string="
                +:+ ownertext +:+ ")"))))).

(** The body of a goroutine; [None] is a run-time panic. *)
Definition run (ctx : bool) (t : task) : option effect :=
  match t with
  | go_expandowners ownertext => expandowners ownertext ctx
  | go_expandteam fullteam => expandteam fullteam ctx
  | go_fetchuser name => fetchuser name ctx
  | go_finduseremail email => finduseremail email ctx
  end.

(** Where a goroutine stands once its body has run up to the send. *)
Definition after (e : effect) : goroutine :=
  match eff_send e with
  | Some m => Send m
  | None => Exit
  end.

(** One iteration of the [for] loop of [Match], [c] being the case that
    [select] takes among those that are ready. *)
Definition loop (c : select_case) (s : state) : option state :=
  if err_closed s && data_closed s then
    Some (set_returned (users s, error_slice s) s)
  else
    match c with
    | on_done =>
        if ctx_done s then Some (set_returned (users s, error_slice s) s)
        else None
    | on_err i =>
        match pool s !! i with
        | Some (Send (Err err)) =>
            if err_chan_closed (closing s) then None
            else Some (set_error_slice (error_slice s ++ [err])
                         (set_pool (<[i := Exit]> (pool s)) (wait s) s))
        | _ => None
        end
    | on_err_closed =>
        if err_chan_closed (closing s) then Some (set_err_closed true s)
        else None
    | on_data i =>
        match pool s !! i with
        | Some (Send (Data user)) =>
            if data_chan_closed (closing s) then None
            else Some (set_users (users s ++ [user])
                         (set_pool (<[i := Exit]> (pool s)) (wait s) s))
        | _ => None
        end
    | on_data_closed =>
        if data_chan_closed (closing s) then Some (set_data_closed true s)
        else None
    end.

(** One step of the program; [None] when the action cannot happen in [s].
    A panic stops the program. *)
Definition exec (a : action) (s : state) : option state :=
  if panicked s then None else
  match a with
  | a_cancel => Some (set_ctx_done true s)
  | a_run i =>
      match pool s !! i with
      | Some (Run t) =>
          match run (ctx_done s) t with
          | None => Some (set_panicked s)
          | Some e =>
              Some (set_calls (calls s ++ eff_calls e)
                      (set_pool (<[i := after e]> (pool s)
                                   ++ (Run <$> eff_spawn e))
                                (wait s + length (eff_spawn e)) s))
          end
      | _ => None
      end
  | a_exit i =>
      match pool s !! i with
      | Some Exit =>
          match wait s with
          | O => Some (set_panicked s)
          | S n => Some (set_pool (delete i (pool s)) n s)
          end
      | _ => None
      end
  | a_send_closed i =>
      match pool s !! i with
      | Some (Send (Data _)) =>
          if data_chan_closed (closing s) then Some (set_panicked s) else None
      | Some (Send (Err _)) =>
          if err_chan_closed (closing s) then Some (set_panicked s) else None
      | _ => None
      end
  | a_wake =>
      match closing s, wait s with
      | Waiting, O => Some (set_closing Woken s)
      | _, _ => None
      end
  | a_close_data =>
      match closing s with
      | Woken => Some (set_closing ClosedData s)
      | _ => None
      end
  | a_close_err =>
      match closing s with
      | ClosedData => Some (set_closing ClosedBoth s)
      | _ => None
      end
  | a_loop c =>
      match returned s with
      | Some _ => None
      | None => loop c s
      end
  end.

(** A schedule, run from [s]. *)
Fixpoint runs (sched : list action) (s : state) : option state :=
  match sched with
  | [] => Some s
  | a :: rest =>
      match exec a s with
      | Some s' => runs rest s'
      | None => None
      end
  end.

(** The first loop of [Match]: the owners of the rule it is left with. *)
Definition select_owners (patterns : list codeOwner) (path0 : string)
    : option (list string) :=
  fold_left
    (fun owners0 pattern =>
       let '(matched, _) := doublestar_Match (path pattern) path0 in
       if matched then owners pattern else owners0)
    patterns None.

(** Match a file to some github users (or email addresses): the program
    when [Match] is at its [for] loop, or has returned for want of a rule. *)
Definition Match (co : codeOwners) (ctx : bool) (path0 : string) : state :=
  match select_owners (patterns co) path0 with
  | None =>
      let error_slice0 := [errors_New "Failed to find match"] in
      mkState ctx [] 0 Unstarted [] error_slice0 false false []
        (Some ([], error_slice0)) false
  | Some owners0 =>
      mkState ctx ((fun ownertext => Run (go_expandowners ownertext))
                     <$> owners0)
        (length owners0) Waiting [] [] false false [] None false
  end.

(** ** Definitions for the statements *)

(** Whether [doublestar.Match] says that the rule matches; the error is
    not looked at. *)
Definition matches (path0 : string) (rule : codeOwner) : bool :=
  fst (doublestar_Match (path rule) path0).

(** The error of [Match] when no rule matches. *)
Definition not_found : error := errors_New "Failed to find match".

(** The rule that [Get] stores for a line of the file: one for a line of
    two fields or more, none for the other lines. *)
Definition rule_of_line (line : string) : list codeOwner :=
  match strings.Fields line with
  | w0 :: w1 :: rest =>
      [mkCodeOwner (if String.eqb w0 "*" then "**" else w0)
         (Some (w1 :: rest))]
  | _ => []
  end.

(** A comment line, in the words of the specification of the file format:
    its first field starts with the number sign. *)
Definition is_comment (line : string) : bool :=
  match strings.Fields line with
  | w0 :: _ => String.prefix "#" w0
  | [] => false
  end.

(** The rules of a file in the words of the specification: one rule for
    each line that is not empty and not a comment. *)
Definition rules_without_comments (content : string) : list codeOwner :=
  strings.Split content "010"%char
  ≫= (fun line => if is_comment line then [] else rule_of_line line).

(** ** What the goroutines deliver, and how long they take *)

(** The calls made and the messages sent by the goroutine of [t] and by
    those it starts, when the context never fires; [y] gives those of the
    goroutines started. *)
Definition deliver (y : task -> list event) (t : task) : list event :=
  match run false t with
  | None => []
  | Some e =>
      (inl <$> eff_calls e)
      ++ match eff_send e with Some m => [inr m] | None => [] end
      ++ (eff_spawn e ≫= y)
  end.

(** Goroutines start others three deep at most, see [level]. *)
Definition yield : task -> list event := Nat.iter 3 deliver (fun _ => []).

(** What is still to come from a goroutine of the pool. *)
Definition pending (g : goroutine) : list event :=
  match g with
  | Run t => yield t
  | Send m => [inr m]
  | Exit => []
  end.

(** What has been observed in [s]: the calls made and the messages that
    [Match] has received. *)
Definition observed (s : state) : list event :=
  (inl <$> calls s)
  ++ (inr <$> (Data <$> users s))
  ++ (inr <$> (Err <$> error_slice s)).

(** Nothing is lost and nothing is made up: what has been observed and
    what is still to come are, together, [total]. *)
Definition conserved (total : list event) (s : state) : Prop :=
  observed s ++ (pool s ≫= pending) ≡ₚ total.

(** Everything that a rule with these owners lets observe. *)
Definition outcome (owners0 : list string) : list event :=
  owners0 ≫= (fun ownertext => yield (go_expandowners ownertext)).

(** The steps that the goroutine of [t] and those it starts still take. *)
Definition cost (w : task -> nat) (t : task) : nat :=
  match run false t with
  | None => 1
  | Some e =>
      1 + match eff_send e with Some _ => 2 | None => 1 end
      + sum_list (w <$> eff_spawn e)
  end.

Definition weight : task -> nat := Nat.iter 3 cost (fun _ => 0%nat).

Definition steps_left (g : goroutine) : nat :=
  match g with
  | Run t => weight t
  | Send _ => 2
  | Exit => 1
  end.

Definition closer_left (c : closer) : nat :=
  match c with
  | Waiting => 3
  | Woken => 2
  | ClosedData => 1
  | ClosedBoth | Unstarted => 0
  end.

(** A bound on the steps to the return of [Match] under [next]. *)
Definition measure (s : state) : nat :=
  sum_list (steps_left <$> pool s) + closer_left (closing s)
  + (if data_closed s then 0 else 1) + (if err_closed s then 0 else 1) + 1.

(** A scheduler that lets the first goroutine of the pool move, then the
    closer, then [Match]; it returns at once when the context has fired. *)
Definition next (s : state) : action :=
  if ctx_done s then a_loop on_done
  else
    match pool s with
    | Run _ :: _ => a_run 0
    | Send (Data _) :: _ => a_loop (on_data 0)
    | Send (Err _) :: _ => a_loop (on_err 0)
    | Exit :: _ => a_exit 0
    | [] =>
        match closing s with
        | Waiting => a_wake
        | Woken => a_close_data
        | ClosedData => a_close_err
        | ClosedBoth | Unstarted =>
            if data_closed s then
              if err_closed s then a_loop on_done else a_loop on_err_closed
            else a_loop on_data_closed
        end
    end.

(** The schedule of [next] from [s], up to the return of [Match] or [n]
    steps, and the state it ends in. *)
Fixpoint drive (n : nat) (s : state) : list action * state :=
  match n with
  | O => ([], s)
  | S n' =>
      match returned s with
      | Some _ => ([], s)
      | None =>
          match exec (next s) s with
          | Some s' => let '(sched, s'') := drive n' s' in
                       (next s :: sched, s'')
          | None => ([], s)
          end
      end
  end.

(** ** Invariants *)

(** A goroutine of the pool whose body cannot panic on its slices. *)
Definition safe_task (t : task) : Prop :=
  match t with
  | go_expandteam fullteam =>
      strings.HasPrefix fullteam "@" = true
      /\ strings.Contains fullteam "/" = true
  | _ => True
  end.

Definition safe_goroutine (g : goroutine) : Prop :=
  match g with
  | Run t => safe_task t
  | _ => True
  end.

(** The wait group counts the goroutines of the pool; nothing is closed,
    and [Match] has seen nothing closed, while one of them is left. *)
Record wf (s : state) : Prop := mkWf {
  wf_panicked : panicked s = false;
  wf_wait : wait s = length (pool s);
  wf_safe : Forall safe_goroutine (pool s);
  wf_closing : closing s <> Waiting -> pool s = [];
  wf_data_closed : data_closed s = true -> data_chan_closed (closing s) = true;
  wf_err_closed : err_closed s = true -> err_chan_closed (closing s) = true
}.

(** What [Match] has returned are its two slices as they were, and are:
    nothing is appended to them after the return.  When the context has
    not fired, [Match] has returned because it has seen both channels
    closed. *)
Definition returned_ok (s : state) : Prop :=
  forall r, returned s = Some r ->
    r = (users s, error_slice s)
    /\ (ctx_done s = false -> err_closed s = true /\ data_closed s = true).

(** ** The classification of the specification *)

(** The three kinds of owner token. *)
Inductive OwnerToken : Type :=
| TeamRef (org slug : string)
| UserHandle (login : string)
| EmailToken (address : string).

(** The classifier in the words of the specification: its four rules, in
    their order; [None] is the invalid token. *)
Definition classify (token : string) : option OwnerToken :=
  match token with
  | String a rest =>
      if Ascii.eqb a "@" then
        match cut "/" rest with
        | Some (org, slug) => Some (TeamRef org slug)
        | None => Some (UserHandle rest)
        end
      else
        match cut "@" rest with
        | Some _ => Some (EmailToken token)
        | None => None
        end
  | EmptyString => None
  end.

(** What [expandowners] does for a token of each kind. *)
Definition dispatch (token : string) (k : option OwnerToken) : effect :=
  match k with
  | Some (TeamRef _ _) => mkEffect [] [go_expandteam token] None
  | Some (UserHandle login) => mkEffect [] [go_fetchuser login] None
  | Some (EmailToken address) => mkEffect [] [go_finduseremail address] None
  | None =>
      mkEffect [] []
        (Some (Err (errorString
           ("Do not understand user specification %!(EXTRA string="
            +:+ token +:+ ")"))))
  end.

(** ** Further definitions for the statements *)

(** The members of a team whose lookup succeeds, by their users, and those
    whose lookup fails, by their errors, in the order of the members. *)
Definition members_found (members : list string) : list User :=
  omap (fun name => match Users_Get client false name with
                    | inr user => Some user
                    | inl _ => None
                    end) members.
Definition members_failed (members : list string) : list error :=
  omap (fun name => match Users_Get client false name with
                    | inl err => Some err
                    | inr _ => None
                    end) members.

(** The calls to the service that an owner token asks for when the context
    does not fire: none for an email address and for an invalid token, one
    for a user handle; for a team reference the list of the teams, then the
    list of the members when the team is found, then one lookup for each
    member when the members are listed. *)
Definition asked (token : string) : list call :=
  match classify token with
  | Some (TeamRef org slug) =>
      match Organizations_ListTeams client false org with
      | inl _ => [call_ListTeams org]
      | inr teams =>
          let teamid := find_teamid slug teams in
          if teamid =? 0 then [call_ListTeams org]
          else
            match Organizations_ListTeamMembers client false teamid with
            | inl _ => [call_ListTeams org; call_ListTeamMembers teamid]
            | inr members =>
                call_ListTeams org :: call_ListTeamMembers teamid
                :: (call_UsersGet <$> members)
            end
      end
  | Some (UserHandle login) => [call_UsersGet login]
  | Some (EmailToken _) | None => []
  end.

(** No white space begins at any place of [w] when [rest] follows [w]. *)
Fixpoint spaceless (w rest : string) : bool :=
  match w with
  | EmptyString => true
  | String c w' =>
      (strings.space_width (w +:+ rest) =? 0)%nat && spaceless w' rest
  end.

(** A field of a line: not empty, and without white space. *)
Definition field (w : string) : bool :=
  negb (String.eqb w "") && spaceless w "".

(** A rule as [Get] stores them: the pattern is a field other than the lone
    [*], and the owners are a slice of one field or more. *)
Definition rule_ok (rule : codeOwner) : Prop :=
  field (path rule) = true /\ path rule <> "*"
  /\ match owners rule with
     | Some (o :: os) => Forall (fun w => field w = true) (o :: os)
     | _ => False
     end.

(** The schedule in which two owners are expanded, their users looked up
    and received, the first or the second of them first, and everything
    then winds up. *)
Definition two_owners (second_first : bool) : list action :=
  [a_run 0%nat; a_run 1%nat; a_run 2%nat; a_run 3%nat]
  ++ (if second_first
      then [a_loop (on_data 3%nat); a_loop (on_data 2%nat)]
      else [a_loop (on_data 2%nat); a_loop (on_data 3%nat)])
  ++ [a_exit 0%nat; a_exit 0%nat; a_exit 0%nat; a_exit 0%nat;
      a_wake; a_close_data; a_close_err;
      a_loop on_data_closed; a_loop on_err_closed; a_loop on_done].

(** ** Rule selection *)

Lemma select_owners_snoc (rules : list codeOwner) (rule : codeOwner)
    (path0 : string) :
  select_owners (rules ++ [rule]) path0
  = if matches path0 rule then owners rule else select_owners rules path0.
Proof.
  unfold select_owners, matches. rewrite fold_left_app. simpl.
  destruct (doublestar_Match (path rule) path0) as [matched e]. reflexivity.
Qed.

Lemma select_owners_last (rules : list codeOwner) (path0 : string) :
  select_owners rules path0
  = last (filter (fun rule => matches path0 rule = true) rules) ≫= owners.
Proof.
  induction rules as [|rule rules IH] using rev_ind; [reflexivity|].
  rewrite select_owners_snoc, filter_app, IH.
  destruct (matches path0 rule) eqn:Hm.
  - rewrite (filter_cons_True _ rule []) by exact Hm.
    rewrite filter_nil, last_snoc. reflexivity.
  - rewrite (filter_cons_False _ rule []) by congruence.
    rewrite filter_nil, app_nil_r. reflexivity.
Qed.

Lemma select_owners_none (rules : list codeOwner) (path0 : string) :
  Forall (fun rule => matches path0 rule = false) rules ->
  select_owners rules path0 = None.
Proof.
  induction rules as [|rule rules IH] using rev_ind; [reflexivity|].
  intros [Hrules Hrule]%Forall_app. rewrite select_owners_snoc.
  apply Forall_inv in Hrule. simpl in Hrule. rewrite Hrule. auto.
Qed.

Lemma select_owners_skip (before after : list codeOwner) (rule : codeOwner)
    (path0 : string) :
  matches path0 rule = false ->
  select_owners (before ++ rule :: after) path0
  = select_owners (before ++ after) path0.
Proof.
  intros Hm. rewrite !select_owners_last, !filter_app.
  rewrite (filter_cons_False _ rule after) by congruence. reflexivity.
Qed.

(** The states of [Match] *)

Lemma Match_none (co : codeOwners) (ctx : bool) (path0 : string) :
  select_owners (patterns co) path0 = None ->
  Match co ctx path0
  = mkState ctx [] 0 Unstarted [] [not_found] false false []
      (Some ([], [not_found])) false.
Proof. unfold Match. intros ->. reflexivity. Qed.

Lemma Match_some (co : codeOwners) (ctx : bool) (path0 : string)
    (owners0 : list string) :
  select_owners (patterns co) path0 = Some owners0 ->
  Match co ctx path0
  = mkState ctx ((fun ownertext => Run (go_expandowners ownertext))
                   <$> owners0)
      (length owners0) Waiting [] [] false false [] None false.
Proof. unfold Match. intros ->. reflexivity. Qed.

(** C1. Last match wins: when [rule] is the last rule of the file, in file
    order, whose pattern matches the path, [Match] is left with the owners
    of [rule], whatever the rules before it are, and starts one
    [expandowners] for each of these owners and for no other token. *)
Theorem last_match_wins (co : codeOwners) (ctx : bool) (path0 : string)
    (rule : codeOwner) :
  last (filter (fun r => matches path0 r = true) (patterns co)) = Some rule ->
  select_owners (patterns co) path0 = owners rule
  /\ forall owners0, owners rule = Some owners0 ->
       pool (Match co ctx path0)
       = (fun ownertext => Run (go_expandowners ownertext)) <$> owners0
       /\ returned (Match co ctx path0) = None.
Proof.
  intros Hlast.
  assert (Hsel : select_owners (patterns co) path0 = owners rule).
  { rewrite select_owners_last, Hlast. reflexivity. }
  split; [exact Hsel|].
  intros owners0 Hown. rewrite Hown in Hsel.
  rewrite (Match_some _ _ _ _ Hsel). split; reflexivity.
Qed.

(** Once [Match] has returned for want of a rule, nothing is left that
    could move but the context. *)
Lemma exec_unstarted (a : action) (s s' : state) :
  pool s = [] -> closing s = Unstarted -> returned s <> None ->
  exec a s = Some s' ->
  s' = set_ctx_done true s.
Proof.
  intros Hpool Hclosing Hret. unfold exec.
  destruct (panicked s); [discriminate|].
  destruct a as [|i|i|i| | | |c]; rewrite ?Hpool, ?Hclosing; simpl;
    try discriminate.
  - intros [= <-]. reflexivity.
  - destruct (returned s); [discriminate|]. contradiction.
Qed.

Lemma runs_unstarted (sched : list action) (s s' : state) :
  pool s = [] -> closing s = Unstarted -> returned s <> None ->
  runs sched s = Some s' ->
  s' = s \/ s' = set_ctx_done true s.
Proof.
  revert s. induction sched as [|a sched IH]; simpl; intros s Hp Hc Hr.
  - intros [= <-]. left. reflexivity.
  - destruct (exec a s) as [s1|] eqn:Hexec; [|discriminate].
    apply exec_unstarted in Hexec; try assumption. subst s1. intros Hruns.
    apply IH in Hruns; try assumption. destruct Hruns as [-> | ->];
      right; reflexivity.
Qed.

(** C7. When no rule matches the path, [Match] returns the error
    "Failed to find match" with no user, with no goroutine started and no
    call to the remote service made, and however the program goes on
    nothing is started or called afterwards.  It is the only return of
    [Match] that comes before the expansion: whenever [Match] has returned
    without a step of the program, it has returned this error. *)
Theorem no_match_short_circuits (co : codeOwners) (ctx : bool)
    (path0 : string) :
  (Forall (fun rule => matches path0 rule = false) (patterns co) ->
   returned (Match co ctx path0) = Some ([], [not_found])
   /\ forall sched s', runs sched (Match co ctx path0) = Some s' ->
        returned s' = Some ([], [not_found])
        /\ pool s' = [] /\ wait s' = 0%nat /\ calls s' = [])
  /\ (forall r, returned (Match co ctx path0) = Some r ->
        r = ([], [not_found])
        /\ select_owners (patterns co) path0 = None).
Proof.
  split.
  - intros Hnone. apply select_owners_none in Hnone.
    rewrite (Match_none _ _ _ Hnone). split; [reflexivity|].
    intros sched s' Hruns.
    apply runs_unstarted in Hruns; [|reflexivity|reflexivity|discriminate].
    destruct Hruns as [-> | ->]; repeat split; reflexivity.
  - intros r. destruct (select_owners (patterns co) path0) as [owners0|] eqn:Hsel.
    + rewrite (Match_some _ _ _ _ Hsel). discriminate.
    + rewrite (Match_none _ _ _ Hsel). simpl. intros [= <-]. split; reflexivity.
Qed.

(** ** The rules that [Get] stores *)

Lemma add_line_rule (rules : list codeOwner) (line : string) :
  add_line rules line = rules ++ rule_of_line line.
Proof.
  unfold add_line, rule_of_line.
  destruct (strings.Fields line) as [|w0 [|w1 rest]]; simpl;
    rewrite ?app_nil_r; reflexivity.
Qed.

Lemma fold_add_line (lines : list string) (rules : list codeOwner) :
  fold_left add_line lines rules = rules ++ (lines ≫= rule_of_line).
Proof.
  revert rules. induction lines as [|line lines IH]; intros rules; simpl.
  - rewrite app_nil_r. reflexivity.
  - rewrite IH, add_line_rule, <- app_assoc. reflexivity.
Qed.

Lemma Get_patterns (ctx : bool) (owner0 repo0 content : string) :
  fetch ctx owner0 repo0 = (content, None) ->
  Get ctx owner0 repo0
  = (mkCodeOwners owner0 repo0
       (strings.Split content "010"%char ≫= rule_of_line), None).
Proof.
  intros Hfetch. unfold Get. rewrite Hfetch, fold_add_line. reflexivity.
Qed.

Lemma rule_of_line_fields (line w0 : string) (rest : list string) :
  strings.Fields line = w0 :: rest -> rest <> [] ->
  rule_of_line line
  = [mkCodeOwner (if String.eqb w0 "*" then "**" else w0) (Some rest)].
Proof.
  intros Hf Hrest. unfold rule_of_line. rewrite Hf.
  destruct rest as [|w1 rest]; [contradiction|reflexivity].
Qed.

Lemma rule_of_line_short (line : string) :
  (length (strings.Fields line) < 2)%nat -> rule_of_line line = [].
Proof.
  unfold rule_of_line.
  destruct (strings.Fields line) as [|w0 [|w1 rest]]; simpl;
    [reflexivity|reflexivity|lia].
Qed.

(** C8. A line of the file whose first field is the lone [*] is stored by
    [Get] as a rule with the pattern [**], so that the stored rule matches
    every path that [**] matches, nested directories included; a line
    with any other first field is stored with that field as its pattern.
    The owners are the other fields. *)
Theorem root_wildcard_normalized (ctx : bool) (owner0 repo0 content : string)
    (line w0 : string) (rest : list string) :
  fetch ctx owner0 repo0 = (content, None) ->
  line ∈ strings.Split content "010"%char ->
  strings.Fields line = w0 :: rest -> rest <> [] ->
  exists rule,
    rule ∈ patterns (fst (Get ctx owner0 repo0))
    /\ owners rule = Some rest
    /\ (w0 = "*" ->
        path rule = "**"
        /\ forall path0, fst (doublestar_Match "**" path0) = true ->
             matches path0 rule = true
             /\ select_owners [rule] path0 = Some rest)
    /\ (w0 <> "*" -> path rule = w0).
Proof.
  intros Hfetch Hline Hfields Hrest.
  exists (mkCodeOwner (if String.eqb w0 "*" then "**" else w0) (Some rest)).
  rewrite (Get_patterns _ _ _ _ Hfetch). simpl. split; [|split; [|split]].
  - apply list_elem_of_bind. exists line. split; [|exact Hline].
    rewrite (rule_of_line_fields _ _ _ Hfields Hrest). apply list_elem_of_singleton.
    reflexivity.
  - reflexivity.
  - intros ->. simpl. split; [reflexivity|]. intros path0 Hm.
    unfold select_owners, matches. simpl.
    destruct (doublestar_Match "**" path0) as [matched e]. simpl in Hm.
    subst matched. split; reflexivity.
  - intros Hne. apply String.eqb_neq in Hne. rewrite Hne. reflexivity.
Qed.

(** C9, as the code has it. [Get] turns each line of the file that has two
    white-space separated fields or more into exactly one rule, the first
    field being the pattern ([*] stored as [**]) and the other fields the
    owner tokens, the rules keeping the order of the lines; a line of
    fewer than two fields gives no rule.  A line is not looked at for a
    comment sign. *)
Theorem Get_rules_of_lines (ctx : bool) (owner0 repo0 content : string) :
  fetch ctx owner0 repo0 = (content, None) ->
  patterns (fst (Get ctx owner0 repo0))
  = strings.Split content "010"%char ≫= rule_of_line
  /\ (forall line w0 rest,
        strings.Fields line = w0 :: rest -> rest <> [] ->
        rule_of_line line
        = [mkCodeOwner (if String.eqb w0 "*" then "**" else w0) (Some rest)])
  /\ (forall line,
        (length (strings.Fields line) < 2)%nat -> rule_of_line line = []).
Proof.
  intros Hfetch. rewrite (Get_patterns _ _ _ _ Hfetch). simpl.
  split; [reflexivity|]. split.
  - exact rule_of_line_fields.
  - exact rule_of_line_short.
Qed.

(** ** Strings *)

Lemma prefix_byte (c a : ascii) (s : string) :
  String.prefix (String c "") (String a s) = Ascii.eqb a c.
Proof.
  simpl. destruct (ascii_dec c a) as [->|Hne].
  - rewrite Ascii.eqb_refl. destruct s; reflexivity.
  - symmetry. apply Ascii.eqb_neq. congruence.
Qed.

Lemma find_from_byte (c a : ascii) (s : string) :
  strings.find_from (String a s) (String c "")
  = if Ascii.eqb a c then Some 0%nat
    else S <$> strings.find_from s (String c "").
Proof.
  change (strings.find_from (String a s) (String c ""))
    with (if String.prefix (String c "") (String a s) then Some 0%nat
          else S <$> strings.find_from s (String c "")).
  rewrite prefix_byte. reflexivity.
Qed.

Lemma cut_some (c : ascii) (s l r : string) :
  cut c s = Some (l, r) ->
  strings.find_from s (String c "") = Some (String.length l)
  /\ s = l +:+ String c r /\ cut c l = None.
Proof.
  revert l. induction s as [|a s IH]; intros l; [discriminate|].
  rewrite find_from_byte. simpl.
  destruct (Ascii.eqb a c) eqn:Hac.
  - intros [= <- <-]. apply Ascii.eqb_eq in Hac. subst a.
    repeat split; reflexivity.
  - destruct (cut c s) as [[l' r']|]; [|discriminate].
    intros [= <- <-]. destruct (IH l' eq_refl) as (Hfind & Hs & Hl).
    rewrite Hfind. simpl. rewrite Hac, Hl.
    split; [reflexivity|]. split; [|reflexivity].
    change (String a s = String a (l' +:+ String c r')). congruence.
Qed.

Lemma cut_none (c : ascii) (s : string) :
  cut c s = None -> strings.find_from s (String c "") = None.
Proof.
  induction s as [|a s IH]; [reflexivity|].
  rewrite find_from_byte. simpl.
  destruct (Ascii.eqb a c); [discriminate|].
  destruct (cut c s) as [[l r]|]; [discriminate|].
  intros _. rewrite IH; reflexivity.
Qed.

Lemma Contains_cut (c : ascii) (s : string) :
  strings.Contains s (String c "") = bool_decide (is_Some (cut c s)).
Proof.
  unfold strings.Contains, strings.Index.
  destruct (cut c s) as [[l r]|] eqn:Hcut.
  - destruct (cut_some _ _ _ _ Hcut) as (-> & _).
    rewrite bool_decide_eq_true_2 by eauto. apply Z.leb_le. lia.
  - rewrite (cut_none _ _ Hcut).
    rewrite bool_decide_eq_false_2 by (intros [? ?]; discriminate).
    reflexivity.
Qed.

Lemma substring_all (s : string) : substring 0 (String.length s) s = s.
Proof. induction s as [|a s IH]; simpl; [reflexivity|]. rewrite IH. reflexivity. Qed.

Lemma substring_app_l (l x : string) :
  substring 0 (String.length l) (l +:+ x) = l.
Proof.
  induction l as [|a l IH]; simpl.
  - destruct x; reflexivity.
  - rewrite IH. reflexivity.
Qed.

Lemma substring_app_r (l x : string) :
  substring (String.length l) (String.length x) (l +:+ x) = x.
Proof. induction l as [|a l IH]; simpl; [apply substring_all|exact IH]. Qed.

Lemma length_append (l x : string) :
  String.length (l +:+ x) = (String.length l + String.length x)%nat.
Proof. induction l as [|a l IH]; simpl; [reflexivity|]. rewrite IH. reflexivity. Qed.

Lemma slice_from_tail (a : ascii) (s : string) :
  slice_from (String a s) 1 = Some s.
Proof.
  unfold slice_from, slice.
  replace (Z.to_nat (Z.of_nat (String.length (String a s)) - 1))
    with (String.length s) by (simpl String.length; lia).
  rewrite (proj2 (Z.leb_le 0 1)) by lia.
  rewrite (proj2 (Z.leb_le 1 _)) by (simpl String.length; lia).
  rewrite Z.leb_refl. simpl. rewrite substring_all. reflexivity.
Qed.

(** The two slices of [expandteam] on a token that starts with a byte and
    then has [org], a slash and [slug]. *)
Lemma slices_of_team (a : ascii) (org slug : string) :
  cut "/" org = None -> Ascii.eqb a "/" = false ->
  let token := String a (org +:+ String "/" slug) in
  strings.Index token "/" = Z.of_nat (S (String.length org))
  /\ slice token 1 (strings.Index token "/") = Some org
  /\ slice_from token (strings.Index token "/" + 1) = Some slug.
Proof.
  intros Horg Ha token.
  assert (Hcut : cut "/" (org +:+ String "/" slug) = Some (org, slug)).
  { clear Ha token. induction org as [|b org IH]; simpl.
    - reflexivity.
    - simpl in Horg. destruct (Ascii.eqb b "/"); [discriminate|].
      destruct (cut "/" org) as [[? ?]|]; [discriminate|].
      rewrite IH; reflexivity. }
  assert (Hidx : strings.Index token "/" = Z.of_nat (S (String.length org))).
  { unfold strings.Index, token.
    assert (Hc : cut "/" (String a (org +:+ String "/" slug))
                 = Some (String a org, slug)).
    { simpl. rewrite Ha, Hcut. reflexivity. }
    destruct (cut_some _ _ _ _ Hc) as (-> & _). reflexivity. }
  assert (Hlen : String.length token
                 = (2 + String.length org + String.length slug)%nat).
  { unfold token. simpl. rewrite length_append. simpl. lia. }
  split; [exact Hidx|]. rewrite Hidx. split.
  - unfold slice. rewrite Hlen.
    rewrite (proj2 (Z.leb_le 0 1)), (proj2 (Z.leb_le 1 _)),
      (proj2 (Z.leb_le _ _)) by lia.
    simpl andb. cbv iota. f_equal.
    replace (Z.to_nat (Z.of_nat (S (String.length org)) - 1))
      with (String.length org) by lia.
    unfold token. simpl. apply substring_app_l.
  - unfold slice_from, slice. rewrite Hlen.
    rewrite (proj2 (Z.leb_le 0 _)), (proj2 (Z.leb_le _ _)) by lia.
    rewrite Z.leb_refl. simpl andb. cbv iota. f_equal.
    replace (Z.to_nat (Z.of_nat (S (String.length org)) + 1))
      with (S (S (String.length org))) by lia.
    replace (Z.to_nat
               (Z.of_nat (2 + String.length org + String.length slug)
                - (Z.of_nat (S (String.length org)) + 1)))
      with (String.length slug) by lia.
    unfold token. cbn [substring].
    clear. induction org as [|b org IH]; simpl; [apply substring_all|exact IH].
Qed.

(** ** The classification of owner tokens *)

Lemma HasPrefix_byte (c a : ascii) (s : string) :
  strings.HasPrefix (String a s) (String c "") = Ascii.eqb a c.
Proof. apply prefix_byte. Qed.

Lemma Contains_tail (c a : ascii) (s : string) :
  Ascii.eqb a c = false ->
  strings.Contains (String a s) (String c "")
  = bool_decide (is_Some (cut c s)).
Proof.
  intros Hac. rewrite Contains_cut. simpl. rewrite Hac.
  destruct (cut c s) as [[l r]|].
  - rewrite !bool_decide_eq_true_2 by eauto. reflexivity.
  - rewrite !bool_decide_eq_false_2 by (intros [? ?]; discriminate).
    reflexivity.
Qed.

Lemma expandowners_dispatch (token : string) (ctx : bool) :
  expandowners token ctx = Some (dispatch token (classify token)).
Proof.
  unfold expandowners. destruct token as [|a rest]; [reflexivity|].
  unfold classify. rewrite HasPrefix_byte.
  destruct (Ascii.eqb a "@") eqn:Ha.
  - apply Ascii.eqb_eq in Ha. subst a.
    rewrite Contains_tail by reflexivity. rewrite slice_from_tail.
    destruct (cut "/" rest) as [[org slug]|].
    + rewrite bool_decide_eq_true_2 by eauto. reflexivity.
    + rewrite bool_decide_eq_false_2 by (intros [? ?]; discriminate).
      reflexivity.
  - simpl andb. cbv iota. rewrite (Contains_tail "@" a rest Ha).
    destruct (cut "@" rest) as [[l r]|].
    + rewrite bool_decide_eq_true_2 by eauto. reflexivity.
    + rewrite bool_decide_eq_false_2 by (intros [? ?]; discriminate).
      reflexivity.
Qed.

(** C3. [expandowners] does for every token what the four rules of the
    classifier say, taken in their order: a token that starts with [@]
    and has a slash is a team reference, whose organisation is what stands
    between the [@] and the first slash and whose slug is what follows
    that slash (the two slices of [expandteam]); another token that starts
    with [@] is a user handle, the login being what follows the [@]; a
    token with an [@] further on is an email address, given whole to
    [finduseremail]; any other token gives the error.  [classify] being a
    function, a token is of exactly one of the four kinds. *)
Theorem classification (token : string) (ctx : bool) :
  expandowners token ctx = Some (dispatch token (classify token))
  /\ (forall org slug, classify token = Some (TeamRef org slug) ->
        token = "@" +:+ org +:+ "/" +:+ slug
        /\ cut "/" org = None
        /\ slice token 1 (strings.Index token "/") = Some org
        /\ slice_from token (strings.Index token "/" + 1) = Some slug)
  /\ (forall login, classify token = Some (UserHandle login) ->
        token = "@" +:+ login /\ strings.Contains token "/" = false)
  /\ (forall address, classify token = Some (EmailToken address) ->
        address = token
        /\ strings.HasPrefix token "@" = false
        /\ strings.Contains token "@" = true)
  /\ (classify token = None ->
        strings.HasPrefix token "@" = false
        /\ strings.Contains token "@" = false).
Proof.
  split; [apply expandowners_dispatch|].
  destruct token as [|a rest].
  - repeat split; try discriminate; reflexivity.
  - unfold classify. rewrite HasPrefix_byte.
    destruct (Ascii.eqb a "@") eqn:Ha.
    + apply Ascii.eqb_eq in Ha. subst a.
      rewrite Contains_tail by reflexivity.
      destruct (cut "/" rest) as [[org slug]|] eqn:Hcut.
      * destruct (cut_some _ _ _ _ Hcut) as (_ & Hrest & Horg).
        split; [|repeat split; discriminate].
        intros org' slug' [= <- <-]. subst rest.
        destruct (slices_of_team "@" org slug Horg eq_refl) as (_ & H1 & H2).
        repeat split; assumption.
      * rewrite bool_decide_eq_false_2 by (intros [? ?]; discriminate).
        split; [discriminate|]. split; [|split; discriminate].
        intros login [= <-]. split; reflexivity.
    + rewrite (Contains_tail "@" a rest Ha).
      destruct (cut "@" rest) as [[l r]|] eqn:Hcut.
      * rewrite bool_decide_eq_true_2 by eauto.
        split; [discriminate|]. split; [discriminate|].
        split; [|discriminate].
        intros address [= <-]. repeat split; reflexivity.
      * rewrite bool_decide_eq_false_2 by (intros [? ?]; discriminate).
        repeat split; discriminate.
Qed.

(** ** The goroutines *)

(** A goroutine only starts goroutines of a lower level. *)
Lemma spawn_level (ctx : bool) (t : task) (e : effect) :
  run ctx t = Some e ->
  Forall (fun t' => (level t' < level t)%nat) (eff_spawn e).
Proof.
  destruct t as [ownertext|fullteam|name|email]; simpl.
  - unfold expandowners. repeat case_match; intros [= <-]; simpl;
      repeat constructor.
  - unfold expandteam. repeat case_match; intros [= <-]; simpl;
      try constructor.
    apply Forall_fmap, Forall_true. simpl. lia.
  - unfold fetchuser. case_match; intros [= <-]; constructor.
  - unfold finduseremail. case_match; intros [= <-]; constructor.
Qed.

(** A definition by [Nat.iter] over the goroutines started is a fixed
    point, once iterated more often than the level. *)
Lemma iter_level {A : Type} (F : (task -> A) -> task -> A) (base : task -> A) :
  (forall y y' t,
      (forall e t', run false t = Some e -> t' ∈ eff_spawn e -> y t' = y' t') ->
      F y t = F y' t) ->
  forall n t, (level t < n)%nat ->
    Nat.iter n F base t = Nat.iter (S n) F base t.
Proof.
  intros Hlocal. induction n as [|n IH]; intros t Hlt; [lia|].
  change (F (Nat.iter n F base) t = F (Nat.iter (S n) F base) t).
  apply Hlocal. intros e t' Hrun Hin. apply IH.
  pose proof (spawn_level _ _ _ Hrun) as Hlev.
  rewrite Forall_forall in Hlev. specialize (Hlev _ Hin). lia.
Qed.

Lemma level_lt_3 (t : task) : (level t < 3)%nat.
Proof. destruct t; simpl; lia. Qed.

Lemma yield_unfold (t : task) : yield t = deliver yield t.
Proof.
  unfold yield. apply (iter_level deliver (fun _ => [])); [|apply level_lt_3].
  intros y y' t0 Hy. unfold deliver.
  destruct (run false t0) as [e|]; [|reflexivity].
  do 2 f_equal. apply Forall_bind_ext, Forall_forall. intros t' Hin.
  exact (Hy e t' eq_refl Hin).
Qed.

Lemma weight_unfold (t : task) : weight t = cost weight t.
Proof.
  unfold weight. apply (iter_level cost (fun _ => 0%nat)); [|apply level_lt_3].
  intros y y' t0 Hy. unfold cost.
  destruct (run false t0) as [e|]; [|reflexivity].
  do 2 f_equal. apply list_fmap_ext. intros i t' Hin.
  apply (Hy e t' eq_refl). eapply list_elem_of_lookup_2. exact Hin.
Qed.

(** The body of a goroutine of the pool does not panic, and it starts
    goroutines whose bodies do not panic either. *)
Lemma safe_run (ctx : bool) (t : task) :
  safe_task t ->
  exists e, run ctx t = Some e /\ Forall safe_task (eff_spawn e).
Proof.
  destruct t as [ownertext|fullteam|name|email]; simpl.
  - intros _. eexists. split; [apply expandowners_dispatch|].
    unfold classify. destruct ownertext as [|a rest]; simpl; [constructor|].
    destruct (Ascii.eqb a "@") eqn:Ha.
    + apply Ascii.eqb_eq in Ha. subst a.
      destruct (cut "/" rest) as [[org slug]|] eqn:Hcut; simpl;
        repeat constructor.
      * apply HasPrefix_byte.
      * rewrite Contains_tail by reflexivity.
        rewrite bool_decide_eq_true_2; eauto.
    + destruct (cut "@" rest) as [[l r]|]; simpl; repeat constructor.
  - intros [Hprefix Hcontains]. unfold expandteam.
    destruct fullteam as [|a rest]; [discriminate|].
    rewrite HasPrefix_byte in Hprefix. apply Ascii.eqb_eq in Hprefix.
    subst a. rewrite Contains_tail in Hcontains by reflexivity.
    apply bool_decide_eq_true_1 in Hcontains.
    destruct Hcontains as [[org slug] Hcut].
    destruct (cut_some _ _ _ _ Hcut) as (_ & -> & Horg).
    destruct (slices_of_team "@" org slug Horg eq_refl) as (_ & -> & ->).
    repeat case_match; eexists; (split; [reflexivity|]); simpl;
      try constructor.
    apply Forall_fmap, Forall_true. simpl. auto.
  - intros _. unfold fetchuser. case_match; eexists;
      (split; [reflexivity|constructor]).
  - intros _. unfold finduseremail. case_match; eexists;
      (split; [reflexivity|constructor]).
Qed.

(** ** The wait group and the channels *)

Lemma Match_wf (co : codeOwners) (ctx : bool) (path0 : string)
    (owners0 : list string) :
  select_owners (patterns co) path0 = Some owners0 ->
  wf (Match co ctx path0).
Proof.
  intros Hsel. rewrite (Match_some _ _ _ _ Hsel).
  constructor; simpl; try congruence.
  - rewrite length_fmap. reflexivity.
  - apply Forall_fmap, Forall_true. simpl. auto.
Qed.

Lemma wf_lookup (s : state) (i : nat) (g : goroutine) :
  wf s -> pool s !! i = Some g ->
  closing s = Waiting /\ safe_goroutine g /\ wait s = length (pool s)
  /\ (i < length (pool s))%nat.
Proof.
  intros Hwf Hi. split; [|split; [|split]].
  - destruct (closing s) eqn:Hc; try reflexivity;
      rewrite (wf_closing s Hwf) in Hi by congruence; discriminate.
  - exact (Forall_lookup_1 _ _ _ _ (wf_safe s Hwf) Hi).
  - apply Hwf.
  - eapply lookup_lt_Some. exact Hi.
Qed.

(** Every step keeps the invariant: no step panics, neither in a slice,
    nor by a negative wait group counter, nor by a send on a closed
    channel. *)
Lemma exec_wf (a : action) (s s' : state) :
  wf s -> exec a s = Some s' -> wf s'.
Proof.
  intros Hwf. unfold exec. rewrite (wf_panicked s Hwf).
  destruct a as [|i|i|i| | | |c].
  - intros [= <-]. destruct Hwf. constructor; assumption.
  - destruct (pool s !! i) as [[t|m|]|] eqn:Hi; try discriminate.
    destruct (wf_lookup _ _ _ Hwf Hi) as (Hc & Hsafe & Hwait & Hlt).
    destruct (safe_run (ctx_done s) t Hsafe) as (e & -> & Hspawn).
    intros [= <-]. constructor; simpl.
    + apply Hwf.
    + rewrite length_app, length_insert, length_fmap, Hwait. reflexivity.
    + apply Forall_app. split.
      * apply Forall_insert; [apply Hwf|]. unfold after.
        destruct (eff_send e); exact I.
      * apply Forall_fmap. exact Hspawn.
    + congruence.
    + apply Hwf.
    + apply Hwf.
  - destruct (pool s !! i) as [[t|m|]|] eqn:Hi; try discriminate.
    destruct (wf_lookup _ _ _ Hwf Hi) as (Hc & Hsafe & Hwait & Hlt).
    destruct (wait s) as [|n] eqn:Hn; [lia|].
    intros [= <-]. constructor; simpl.
    + apply Hwf.
    + rewrite length_delete by eauto. lia.
    + apply Forall_delete, Hwf.
    + congruence.
    + apply Hwf.
    + apply Hwf.
  - destruct (pool s !! i) as [[t|m|]|] eqn:Hi; try discriminate.
    destruct (wf_lookup _ _ _ Hwf Hi) as (Hc & _).
    rewrite Hc. destruct m; discriminate.
  - destruct (closing s) eqn:Hc; try discriminate.
    destruct (wait s) eqn:Hn; [|discriminate].
    assert (Hnil : pool s = []).
    { apply nil_length_inv. rewrite <- (wf_wait s Hwf). exact Hn. }
    pose proof (wf_data_closed s Hwf) as Hd. pose proof (wf_err_closed s Hwf) as He.
    rewrite Hc in Hd, He. simpl in Hd, He.
    intros [= <-]. constructor; simpl;
      [apply Hwf|rewrite Hn, Hnil; reflexivity|apply Hwf|auto|auto|auto].
  - destruct (closing s) eqn:Hc; try discriminate.
    assert (Hnil : pool s = []) by (apply (wf_closing s Hwf); congruence).
    pose proof (wf_err_closed s Hwf) as He. rewrite Hc in He. simpl in He.
    intros [= <-]. constructor; simpl;
      [apply Hwf|apply Hwf|apply Hwf|auto|auto|auto].
  - destruct (closing s) eqn:Hc; try discriminate.
    assert (Hnil : pool s = []) by (apply (wf_closing s Hwf); congruence).
    intros [= <-]. constructor; simpl;
      [apply Hwf|apply Hwf|apply Hwf|auto|auto|auto].
  - destruct (returned s); [discriminate|]. unfold loop.
    destruct (err_closed s && data_closed s).
    { intros [= <-]. destruct Hwf. constructor; assumption. }
    destruct c as [|i| |i|].
    + destruct (ctx_done s); [|discriminate].
      intros [= <-]. destruct Hwf. constructor; assumption.
    + destruct (pool s !! i) as [[t|[u|err]|]|] eqn:Hi; try discriminate.
      destruct (wf_lookup _ _ _ Hwf Hi) as (Hc & Hsafe & Hwait & Hlt).
      rewrite Hc. simpl. intros [= <-]. constructor; simpl.
      * apply Hwf.
      * rewrite length_insert. exact Hwait.
      * apply Forall_insert; [apply Hwf|exact I].
      * congruence.
      * apply Hwf.
      * apply Hwf.
    + destruct (err_chan_closed (closing s)) eqn:Hc; [|discriminate].
      intros [= <-]. constructor; simpl;
        [apply Hwf|apply Hwf|apply Hwf|apply Hwf|apply Hwf|auto].
    + destruct (pool s !! i) as [[t|[u|err]|]|] eqn:Hi; try discriminate.
      destruct (wf_lookup _ _ _ Hwf Hi) as (Hc & Hsafe & Hwait & Hlt).
      rewrite Hc. simpl. intros [= <-]. constructor; simpl.
      * apply Hwf.
      * rewrite length_insert. exact Hwait.
      * apply Forall_insert; [apply Hwf|exact I].
      * congruence.
      * apply Hwf.
      * apply Hwf.
    + destruct (data_chan_closed (closing s)) eqn:Hc; [|discriminate].
      intros [= <-]. constructor; simpl;
        [apply Hwf|apply Hwf|apply Hwf|apply Hwf|auto|apply Hwf].
Qed.

Lemma runs_wf (sched : list action) (s s' : state) :
  wf s -> runs sched s = Some s' -> wf s'.
Proof.
  revert s. induction sched as [|a sched IH]; simpl; intros s Hwf.
  - intros [= <-]. exact Hwf.
  - destruct (exec a s) as [s1|] eqn:Hexec; [|discriminate].
    apply IH. exact (exec_wf _ _ _ Hwf Hexec).
Qed.

Lemma runs_app (sched1 sched2 : list action) (s : state) :
  runs (sched1 ++ sched2) s
  = match runs sched1 s with
    | Some s1 => runs sched2 s1
    | None => None
    end.
Proof.
  revert s. induction sched1 as [|a sched1 IH]; simpl; intros s;
    [reflexivity|].
  destruct (exec a s); [apply IH|reflexivity].
Qed.

(** ** Nothing is lost *)

Lemma insert_Permutation (l : list goroutine) (i : nat) (g g' : goroutine) :
  l !! i = Some g -> <[i := g']> l ≡ₚ g' :: delete i l.
Proof.
  intros Hi. rewrite insert_take_drop by (eapply lookup_lt_Some; exact Hi).
  rewrite delete_take_drop. symmetry. apply Permutation_middle.
Qed.

Lemma pending_after (t : task) (e : effect) :
  run false t = Some e ->
  yield t
  = (inl <$> eff_calls e) ++ pending (after e) ++ (eff_spawn e ≫= yield).
Proof.
  intros Hrun. rewrite yield_unfold. unfold deliver, after. rewrite Hrun.
  destruct (eff_send e); reflexivity.
Qed.

Lemma exec_ctx_done (a : action) (s s' : state) :
  exec a s = Some s' -> ctx_done s' = false -> ctx_done s = false.
Proof.
  unfold exec, loop. intros Hexec Hdone.
  repeat (case_match; try discriminate); simplify_eq; simpl in *;
    congruence.
Qed.

Lemma runs_ctx_done (sched : list action) (s s' : state) :
  runs sched s = Some s' -> ctx_done s' = false -> ctx_done s = false.
Proof.
  revert s. induction sched as [|a sched IH]; simpl; intros s.
  - intros [= <-]. auto.
  - destruct (exec a s) as [s1|] eqn:Hexec; [|discriminate].
    intros Hruns Hdone. eapply exec_ctx_done; [exact Hexec|]. eauto.
Qed.

(** While the context has not fired, every step keeps the calls and the
    messages: those of a goroutine's body go from what is to come to what
    is observed or to the goroutines it starts, a message received goes to
    the slice of [Match]. *)
Lemma exec_conserved (total : list event) (a : action) (s s' : state) :
  wf s -> exec a s = Some s' -> ctx_done s' = false ->
  conserved total s -> conserved total s'.
Proof.
  intros Hwf Hexec Hdone'. pose proof (exec_ctx_done _ _ _ Hexec Hdone') as Hdone.
  revert Hexec. unfold exec. rewrite (wf_panicked s Hwf).
  unfold conserved, observed. intros Hexec Hcons.
  destruct a as [|i|i|i| | | |c].
  - simplify_eq; simpl in Hdone'; discriminate.
  - destruct (pool s !! i) as [[t|m|]|] eqn:Hi; try discriminate.
    rewrite Hdone in Hexec.
    destruct (run false t) as [e|] eqn:Hrun; simplify_eq; simpl.
    + rewrite <- Hcons. rewrite (delete_Permutation _ _ _ Hi) at 2.
      rewrite bind_app, (insert_Permutation _ _ _ (after e) Hi).
      rewrite !bind_cons, list_fmap_bind, fmap_app. simpl.
      rewrite (pending_after _ _ Hrun).
      change (eff_spawn e ≫= pending ∘ Run) with (eff_spawn e ≫= yield).
      solve_Permutation.
    + rewrite <- Hcons. reflexivity.
  - destruct (pool s !! i) as [[t|m|]|] eqn:Hi; try discriminate.
    destruct (wait s); simplify_eq; simpl.
    + exact Hcons.
    + rewrite <- Hcons. rewrite (delete_Permutation _ _ _ Hi) at 2.
      rewrite bind_cons. reflexivity.
  - destruct (pool s !! i) as [[t|[u|err]|]|] eqn:Hi; try discriminate;
      case_match; simplify_eq; exact Hcons.
  - repeat case_match; simplify_eq; exact Hcons.
  - repeat case_match; simplify_eq; exact Hcons.
  - repeat case_match; simplify_eq; exact Hcons.
  - destruct (returned s); [discriminate|]. unfold loop in Hexec.
    destruct (err_closed s && data_closed s); [simplify_eq; exact Hcons|].
    destruct c as [|i| |i|].
    + case_match; simplify_eq; exact Hcons.
    + destruct (pool s !! i) as [[t|[u|err]|]|] eqn:Hi; try discriminate.
      case_match; simplify_eq; simpl.
      rewrite <- Hcons. rewrite (delete_Permutation _ _ _ Hi) at 2.
      rewrite (insert_Permutation _ _ _ Exit Hi), !bind_cons, !fmap_app.
      simpl. solve_Permutation.
    + case_match; simplify_eq; exact Hcons.
    + destruct (pool s !! i) as [[t|[u|err]|]|] eqn:Hi; try discriminate.
      case_match; simplify_eq; simpl.
      rewrite <- Hcons. rewrite (delete_Permutation _ _ _ Hi) at 2.
      rewrite (insert_Permutation _ _ _ Exit Hi), !bind_cons, !fmap_app.
      simpl. solve_Permutation.
    + case_match; simplify_eq; exact Hcons.
Qed.

Lemma runs_conserved (total : list event) (sched : list action)
    (s s' : state) :
  wf s -> runs sched s = Some s' -> ctx_done s' = false ->
  conserved total s -> conserved total s'.
Proof.
  revert s. induction sched as [|a sched IH]; simpl; intros s Hwf.
  - intros [= <-]. auto.
  - destruct (exec a s) as [s1|] eqn:Hexec; [|discriminate].
    intros Hruns Hdone Hcons. apply (IH s1); try assumption.
    + exact (exec_wf _ _ _ Hwf Hexec).
    + apply (exec_conserved _ _ _ _ Hwf Hexec); [|exact Hcons].
      exact (runs_ctx_done _ _ _ Hruns Hdone).
Qed.

Lemma Match_conserved (co : codeOwners) (ctx : bool) (path0 : string)
    (owners0 : list string) :
  select_owners (patterns co) path0 = Some owners0 ->
  conserved (outcome owners0) (Match co ctx path0).
Proof.
  intros Hsel. rewrite (Match_some _ _ _ _ Hsel).
  unfold conserved, observed, outcome. simpl. rewrite list_fmap_bind.
  reflexivity.
Qed.

Lemma omap_fmap_Some {A B : Type} (f : B -> option A) (g : A -> B)
    (l : list A) :
  (forall x, f (g x) = Some x) -> omap f (g <$> l) = l.
Proof.
  intros Hfg. induction l as [|x l IH]; csimpl; [reflexivity|].
  rewrite Hfg. csimpl. rewrite IH. reflexivity.
Qed.

Lemma omap_fmap_None {A B C : Type} (f : B -> option C) (g : A -> B)
    (l : list A) :
  (forall x, f (g x) = None) -> omap f (g <$> l) = [].
Proof.
  intros Hfg. induction l as [|x l IH]; csimpl; [reflexivity|].
  rewrite Hfg. exact IH.
Qed.

Lemma observed_projections (s : state) :
  calls_of (observed s) = calls s
  /\ users_of (observed s) = users s
  /\ errors_of (observed s) = error_slice s.
Proof.
  unfold observed, calls_of, users_of, errors_of.
  rewrite !omap_app, <- !list_fmap_compose.
  rewrite (omap_fmap_Some _ inl) by reflexivity.
  rewrite (omap_fmap_Some _ (inr ∘ Data)) by reflexivity.
  rewrite (omap_fmap_Some _ (inr ∘ Err)) by reflexivity.
  rewrite !(omap_fmap_None _ inl) by reflexivity.
  rewrite !(omap_fmap_None _ (inr ∘ Data)) by reflexivity.
  rewrite !(omap_fmap_None _ (inr ∘ Err)) by reflexivity.
  rewrite !app_nil_r. repeat split; reflexivity.
Qed.

(** The goroutines, the closer and the context leave to [Match] what is
    its own. *)
Lemma exec_frame (a : action) (s s' : state) :
  exec a s = Some s' -> (forall c, a <> a_loop c) ->
  returned s' = returned s /\ users s' = users s
  /\ error_slice s' = error_slice s
  /\ err_closed s' = err_closed s /\ data_closed s' = data_closed s.
Proof.
  unfold exec. intros Hexec Hnot.
  destruct a as [|i|i|i| | | |c]; [..|destruct (Hnot c eq_refl)];
    repeat (case_match; try discriminate); simplify_eq; simpl;
    repeat split; reflexivity.
Qed.

Lemma loop_returned_ok (c : select_case) (s s' : state) :
  returned s = None -> loop c s = Some s' -> returned_ok s'.
Proof.
  unfold loop, returned_ok. intros Hret Hloop r.
  destruct (err_closed s && data_closed s) eqn:Hboth.
  - apply andb_true_iff in Hboth. simplify_eq. simpl.
    intros [= <-]. split; [reflexivity|auto].
  - destruct c as [|i| |i|];
      repeat (case_match; try discriminate); simplify_eq; simpl;
      rewrite ?Hret; try discriminate.
    intros [= <-]. split; [reflexivity|]. congruence.
Qed.

Lemma exec_returned_ok (a : action) (s s' : state) :
  exec a s = Some s' -> returned_ok s -> returned_ok s'.
Proof.
  intros Hexec Hok.
  assert (Hcase : (exists c, a = a_loop c) \/ ~ (exists c, a = a_loop c)).
  { destruct a; try (right; intros [? ?]; discriminate). left. eauto. }
  destruct Hcase as [[c ->]|Hnot].
  - unfold exec in Hexec. destruct (panicked s); [discriminate|].
    destruct (returned s) eqn:Hret; [discriminate|].
    exact (loop_returned_ok _ _ _ Hret Hexec).
  - assert (Hnot' : forall c, a <> a_loop c) by (intros c ->; eauto).
    destruct (exec_frame _ _ _ Hexec Hnot') as (Hr & Hu & He & Hec & Hdc).
    intros r. rewrite Hr, Hu, He, Hec, Hdc. intros Hret.
    destruct (Hok r Hret) as (-> & Hflags). split; [reflexivity|].
    intros Hdone. apply Hflags. exact (exec_ctx_done _ _ _ Hexec Hdone).
Qed.

Lemma runs_returned_ok (sched : list action) (s s' : state) :
  runs sched s = Some s' -> returned_ok s -> returned_ok s'.
Proof.
  revert s. induction sched as [|a sched IH]; simpl; intros s.
  - intros [= <-]. auto.
  - destruct (exec a s) as [s1|] eqn:Hexec; [|discriminate].
    intros Hruns Hok. apply (IH s1 Hruns).
    exact (exec_returned_ok _ _ _ Hexec Hok).
Qed.

(** A run of [Match] in which the context has not fired and [Match] has
    returned: what it returned, and the calls that were made, are those of
    the owners of the rule, each in some order. *)
Lemma complete_run (co : codeOwners) (ctx : bool) (path0 : string)
    (owners0 : list string) (sched : list action) (s : state)
    (us : list User) (es : list error) :
  select_owners (patterns co) path0 = Some owners0 ->
  runs sched (Match co ctx path0) = Some s ->
  ctx_done s = false ->
  returned s = Some (us, es) ->
  us ≡ₚ users_of (outcome owners0)
  /\ es ≡ₚ errors_of (outcome owners0)
  /\ calls s ≡ₚ calls_of (outcome owners0)
  /\ pool s = [].
Proof.
  intros Hsel Hruns Hdone Hret.
  pose proof (runs_wf _ _ _ (Match_wf _ ctx _ _ Hsel) Hruns) as Hwf.
  pose proof (runs_conserved _ _ _ _ (Match_wf _ ctx _ _ Hsel) Hruns Hdone
                (Match_conserved _ ctx _ _ Hsel)) as Hcons.
  assert (Hok : returned_ok (Match co ctx path0)).
  { rewrite (Match_some _ _ _ _ Hsel). intros r. discriminate. }
  destruct (runs_returned_ok _ _ _ Hruns Hok _ Hret) as (Hr & Hflags).
  destruct (Hflags Hdone) as (Herr & Hdata). injection Hr as -> ->.
  assert (Hnil : pool s = []).
  { apply (wf_closing s Hwf). pose proof (wf_err_closed s Hwf Herr) as H.
    intros Hc. rewrite Hc in H. discriminate. }
  unfold conserved in Hcons. rewrite Hnil in Hcons. simpl in Hcons.
  rewrite app_nil_r in Hcons.
  destruct (observed_projections s) as (Hc & Hu & He).
  rewrite <- Hc, <- Hu, <- He. unfold calls_of, users_of, errors_of.
  rewrite Hcons. repeat split; reflexivity || exact Hnil.
Qed.

(** ** [Match] returns *)

Lemma exec_started (a : action) (s s' : state) :
  exec a s = Some s' -> closing s <> Unstarted -> closing s' <> Unstarted.
Proof.
  unfold exec, loop. intros Hexec Hc.
  repeat (case_match; try discriminate); simplify_eq; simpl; congruence.
Qed.

Lemma runs_started (sched : list action) (s s' : state) :
  runs sched s = Some s' -> closing s <> Unstarted -> closing s' <> Unstarted.
Proof.
  revert s. induction sched as [|a sched IH]; simpl; intros s.
  - intros [= <-]. auto.
  - destruct (exec a s) as [s1|] eqn:Hexec; [|discriminate].
    intros Hruns Hc. apply (IH s1 Hruns). exact (exec_started _ _ _ Hexec Hc).
Qed.

Lemma weight_run (t : task) (e : effect) :
  run false t = Some e ->
  weight t
  = (1 + steps_left (after e) + sum_list (weight <$> eff_spawn e))%nat.
Proof.
  intros Hrun. rewrite weight_unfold at 1. unfold cost, after.
  rewrite Hrun. destruct (eff_send e); reflexivity.
Qed.

(** The step that [next] picks can be taken; it makes [Match] return or
    brings the return nearer, and leaves the context alone. *)
Lemma next_step (s : state) :
  wf s -> closing s <> Unstarted -> returned s = None ->
  exists s', exec (next s) s = Some s'
    /\ ctx_done s' = ctx_done s
    /\ (returned s' <> None \/ (measure s' < measure s)%nat).
Proof.
  intros Hwf Hstarted Hret. unfold next, exec.
  rewrite (wf_panicked s Hwf).
  destruct (ctx_done s) eqn:Hdone.
  { rewrite Hret. unfold loop. rewrite Hdone.
    destruct (err_closed s && data_closed s); eexists;
      (split; [reflexivity|]); simpl; (split; [exact Hdone|]);
      left; discriminate. }
  destruct (pool s) as [|g rest] eqn:Hpool.
  - pose proof (wf_wait s Hwf) as Hwait. rewrite Hpool in Hwait.
    simpl in Hwait.
    pose proof (wf_data_closed s Hwf) as Hd.
    pose proof (wf_err_closed s Hwf) as He.
    destruct (closing s) eqn:Hc; [congruence| | | |].
    + rewrite Hwait. eexists. split; [reflexivity|]. simpl.
      split; [exact Hdone|]. right. unfold measure. simpl.
      rewrite Hc, Hpool. simpl. lia.
    + eexists. split; [reflexivity|]. simpl.
      split; [exact Hdone|]. right. unfold measure. simpl.
      rewrite Hc, Hpool. simpl. lia.
    + eexists. split; [reflexivity|]. simpl.
      split; [exact Hdone|]. right. unfold measure. simpl.
      rewrite Hc, Hpool. simpl. lia.
    + rewrite Hret. unfold loop. rewrite Hc. simpl.
      destruct (data_closed s) eqn:Hdc, (err_closed s) eqn:Hec; simpl;
        eexists; (split; [reflexivity|]); simpl; (split; [exact Hdone|]).
      * left. discriminate.
      * right. unfold measure. simpl. rewrite Hdc, Hec. lia.
      * right. unfold measure. simpl. rewrite Hdc, Hec. lia.
      * right. unfold measure. simpl. rewrite Hdc, Hec. lia.
  - assert (Hi : pool s !! 0%nat = Some g) by (rewrite Hpool; reflexivity).
    destruct (wf_lookup _ _ _ Hwf Hi) as (Hc & Hsafe & Hwait & _).
    assert (Hflags : err_closed s && data_closed s = false).
    { destruct (data_closed s) eqn:Hdc.
      - pose proof (wf_data_closed s Hwf Hdc) as H. rewrite Hc in H.
        discriminate.
      - apply andb_false_r. }
    destruct g as [t|[u|err]|].
    + simpl.
      destruct (safe_run false t Hsafe) as (e & Hrun & _). rewrite Hrun.
      eexists. split; [reflexivity|]. simpl. split; [exact Hdone|].
      right. unfold measure. simpl. rewrite Hpool. simpl.
      rewrite fmap_app, sum_list_with_app, <- list_fmap_compose.
      rewrite (weight_run _ _ Hrun).
      change (steps_left ∘ Run <$> eff_spawn e) with (weight <$> eff_spawn e).
      change (list_fmap goroutine nat steps_left rest)
        with (steps_left <$> rest).
      lia.
    + rewrite Hret. unfold loop. rewrite Hflags, Hpool, Hc. simpl.
      eexists. split; [reflexivity|]. simpl. split; [exact Hdone|].
      right. unfold measure. simpl. rewrite Hpool. simpl. lia.
    + rewrite Hret. unfold loop. rewrite Hflags, Hpool, Hc. simpl.
      eexists. split; [reflexivity|]. simpl. split; [exact Hdone|].
      right. unfold measure. simpl. rewrite Hpool. simpl. lia.
    + simpl. rewrite Hwait, Hpool. simpl.
      eexists. split; [reflexivity|]. simpl. split; [exact Hdone|].
      right. unfold measure. simpl. rewrite Hpool. simpl.
      change (list_fmap goroutine nat steps_left rest)
        with (steps_left <$> rest).
      lia.
Qed.

Lemma drive_runs (n : nat) (s : state) :
  runs (drive n s).1 s = Some (drive n s).2.
Proof.
  revert s. induction n as [|n IH]; intros s; simpl; [reflexivity|].
  destruct (returned s); [reflexivity|].
  destruct (exec (next s) s) as [s1|] eqn:Hexec; [|reflexivity].
  specialize (IH s1). destruct (drive n s1) as [sched s2]. simpl in *.
  rewrite Hexec. exact IH.
Qed.

(** Under the scheduler [next], [Match] returns within [measure s] steps. *)
Lemma drive_returns (n : nat) (s : state) :
  wf s -> closing s <> Unstarted -> (measure s <= n)%nat ->
  returned (drive n s).2 <> None
  /\ (returned s = None -> ctx_done (drive n s).2 = ctx_done s).
Proof.
  revert s. induction n as [|n IH]; intros s Hwf Hstarted Hle.
  - unfold measure in Hle. lia.
  - simpl. destruct (returned s) eqn:Hret.
    { simpl. rewrite Hret. split; [discriminate|discriminate]. }
    destruct (next_step s Hwf Hstarted Hret) as (s1 & Hexec & Hdone & Hnear).
    rewrite Hexec.
    pose proof (exec_wf _ _ _ Hwf Hexec) as Hwf1.
    pose proof (exec_started _ _ _ Hexec Hstarted) as Hst1.
    destruct (drive n s1) as [sched s2] eqn:Hdrive. simpl.
    destruct (returned s1) eqn:Hret1.
    + destruct n; simpl in Hdrive; rewrite ?Hret1 in Hdrive;
        injection Hdrive as <- <-; rewrite Hret1;
        (split; [discriminate|intros _; exact Hdone]).
    + destruct Hnear as [Hnear|Hnear]; [congruence|].
      assert (Hle1 : (measure s1 <= n)%nat) by lia.
      destruct (IH s1 Hwf1 Hst1 Hle1) as (Hr & Hd).
      rewrite Hdrive in Hr, Hd. simpl in Hr, Hd.
      split; [exact Hr|]. intros _. rewrite (Hd Hret1). exact Hdone.
Qed.

(** ** Best effort *)

Lemma runs_returned_stable (sched : list action) (s s' : state)
    (r : list User * list error) :
  returned s = Some r -> runs sched s = Some s' -> returned s' = Some r.
Proof.
  revert s. induction sched as [|a sched IH]; simpl; intros s Hret.
  - intros [= <-]. exact Hret.
  - destruct (exec a s) as [s1|] eqn:Hexec; [|discriminate].
    apply IH. destruct a as [|i|i|i| | | |c];
      try (rewrite (proj1 (exec_frame _ _ _ Hexec
                             ltac:(intros ?; discriminate))); exact Hret).
    unfold exec in Hexec. rewrite Hret in Hexec.
    destruct (panicked s); discriminate.
Qed.

Lemma partial_run (co : codeOwners) (ctx : bool) (path0 : string)
    (owners0 : list string) (sched : list action) (s : state) :
  select_owners (patterns co) path0 = Some owners0 ->
  runs sched (Match co ctx path0) = Some s ->
  ctx_done s = false ->
  users s ⊆+ users_of (outcome owners0)
  /\ error_slice s ⊆+ errors_of (outcome owners0)
  /\ calls s ⊆+ calls_of (outcome owners0).
Proof.
  intros Hsel Hruns Hdone.
  pose proof (runs_conserved _ _ _ _ (Match_wf _ ctx _ _ Hsel) Hruns Hdone
                (Match_conserved _ ctx _ _ Hsel)) as Hcons.
  unfold conserved in Hcons.
  destruct (observed_projections s) as (Hc & Hu & He).
  rewrite <- Hc, <- Hu, <- He. unfold calls_of, users_of, errors_of.
  rewrite <- Hcons, !omap_app.
  repeat split; apply submseteq_inserts_r; reflexivity.
Qed.

Lemma reachable_returns (co : codeOwners) (ctx : bool) (path0 : string)
    (owners0 : list string) (sched : list action) (s : state) :
  select_owners (patterns co) path0 = Some owners0 ->
  runs sched (Match co ctx path0) = Some s ->
  exists sched' s', runs sched' s = Some s' /\ returned s' <> None
    /\ (returned s = None -> ctx_done s' = ctx_done s).
Proof.
  intros Hsel Hruns.
  pose proof (runs_wf _ _ _ (Match_wf _ ctx _ _ Hsel) Hruns) as Hwf.
  assert (Hst : closing s <> Unstarted).
  { apply (runs_started _ _ _ Hruns). rewrite (Match_some _ _ _ _ Hsel).
    discriminate. }
  exists (drive (measure s) s).1, (drive (measure s) s).2.
  split; [apply drive_runs|]. apply drive_returns; auto.
Qed.

(** While the context has not fired, [Match] can go on to return without
    it firing, and then returns what all the tokens give. *)
Lemma run_to_completion (co : codeOwners) (ctx : bool) (path0 : string)
    (owners0 : list string) (sched : list action) (s : state) :
  select_owners (patterns co) path0 = Some owners0 ->
  runs sched (Match co ctx path0) = Some s ->
  ctx_done s = false ->
  exists sched' s' us es,
    runs sched' s = Some s' /\ ctx_done s' = false
    /\ returned s' = Some (us, es)
    /\ us ≡ₚ users_of (outcome owners0)
    /\ es ≡ₚ errors_of (outcome owners0)
    /\ calls s' ≡ₚ calls_of (outcome owners0).
Proof.
  intros Hsel Hruns Hdone.
  assert (Hgo : exists sched' s',
             runs sched' s = Some s' /\ returned s' <> None
             /\ ctx_done s' = false).
  { destruct (returned s) as [r|] eqn:Hret.
    - exists [], s. rewrite Hret. repeat split; [discriminate|exact Hdone].
    - destruct (reachable_returns _ _ _ _ _ _ Hsel Hruns)
        as (sched' & s' & Hruns' & Hret' & Hdone').
      exists sched', s'. rewrite (Hdone' Hret). auto. }
  destruct Hgo as (sched' & s' & Hruns' & Hret' & Hdone').
  destruct (returned s') as [[us es]|] eqn:Hr; [|congruence].
  assert (Hall : runs (sched ++ sched') (Match co ctx path0) = Some s')
    by (rewrite runs_app, Hruns; exact Hruns').
  destruct (complete_run _ _ _ _ _ _ _ _ Hsel Hall Hdone' Hr)
    as (Hu & He & Hc & _).
  exists sched', s', us, es. auto 10.
Qed.



Lemma yield_invalid (token : string) :
  classify token = None ->
  yield (go_expandowners token)
  = [inr (Err (errors_New
       ("Do not understand user specification %!(EXTRA string="
        +:+ token +:+ ")")))].
Proof.
  intros Hclass. rewrite yield_unfold. unfold deliver. simpl.
  rewrite expandowners_dispatch, Hclass. reflexivity.
Qed.

(** C4. Whatever the owner tokens of the rule are and however the
    goroutines are scheduled: no step panics; what [Match] returns are its
    two slices together, the users and the errors received so far, which
    while the context has not fired are among those of the tokens; when it
    returns without the context having fired it returns the users and the
    errors of all the tokens, each token giving what it gives alone, in
    some order; and as long as the context has not fired [Match] can go on
    to such a return without the context firing, so that the messages of
    all the tokens are received.  An invalid token gives its one error and
    takes nothing from the other tokens of the rule. *)
Theorem best_effort (co : codeOwners) (ctx : bool) (path0 : string)
    (owners0 : list string) :
  select_owners (patterns co) path0 = Some owners0 ->
  (forall before token after, owners0 = before ++ token :: after ->
     outcome owners0
     = outcome before ++ yield (go_expandowners token) ++ outcome after)
  /\ (forall token, classify token = None ->
        yield (go_expandowners token)
        = [inr (Err (errors_New
             ("Do not understand user specification %!(EXTRA string="
              +:+ token +:+ ")")))])
  /\ forall sched s, runs sched (Match co ctx path0) = Some s ->
       panicked s = false
       /\ (ctx_done s = false ->
             users s ⊆+ users_of (outcome owners0)
             /\ error_slice s ⊆+ errors_of (outcome owners0))
       /\ (forall us es, returned s = Some (us, es) ->
             us = users s /\ es = error_slice s
             /\ (ctx_done s = false ->
                   us ≡ₚ users_of (outcome owners0)
                   /\ es ≡ₚ errors_of (outcome owners0)))
       /\ (exists sched' s',
             runs sched' s = Some s' /\ returned s' <> None
             /\ (returned s = None -> ctx_done s' = ctx_done s))
       /\ (ctx_done s = false ->
             exists sched' s' us es,
               runs sched' s = Some s' /\ ctx_done s' = false
               /\ returned s' = Some (us, es)
               /\ us ≡ₚ users_of (outcome owners0)
               /\ es ≡ₚ errors_of (outcome owners0)).
Proof.
  intros Hsel. split; [|split].
  - intros before token after ->. unfold outcome.
    rewrite bind_app, bind_cons. reflexivity.
  - exact yield_invalid.
  - intros sched s Hruns.
    pose proof (runs_wf _ _ _ (Match_wf _ ctx _ _ Hsel) Hruns) as Hwf.
    split; [apply Hwf|]. split; [|split; [|split]].
    + intros Hdone.
      destruct (partial_run _ _ _ _ _ _ Hsel Hruns Hdone) as (Hu & He & _).
      split; assumption.
    + intros us es Hret.
      assert (Hok : returned_ok (Match co ctx path0)).
      { rewrite (Match_some _ _ _ _ Hsel). intros r. discriminate. }
      destruct (runs_returned_ok _ _ _ Hruns Hok _ Hret) as (Hr & _).
      injection Hr as -> ->. split; [reflexivity|]. split; [reflexivity|].
      intros Hdone.
      destruct (complete_run _ _ _ _ _ _ _ _ Hsel Hruns Hdone Hret)
        as (Hu & He & _).
      split; assumption.
    + destruct (reachable_returns _ _ _ _ _ _ Hsel Hruns)
        as (sched' & s' & Hruns' & Hret' & Hdone').
      eauto.
    + intros Hdone.
      destruct (run_to_completion _ _ _ _ _ _ Hsel Hruns Hdone)
        as (sched' & s' & us & es & Hruns' & Hdone' & Hret' & Hu & He & _).
      exists sched', s', us, es. auto.
Qed.


(** ** The three kinds of token *)

Lemma classify_team (token org slug : string) :
  classify token = Some (TeamRef org slug) ->
  token = String "@" (org +:+ String "/" slug) /\ cut "/" org = None.
Proof.
  destruct token as [|a rest]; [discriminate|]. unfold classify.
  destruct (Ascii.eqb a "@") eqn:Ha.
  - apply Ascii.eqb_eq in Ha. subst a.
    destruct (cut "/" rest) as [[org' slug']|] eqn:Hcut; [|discriminate].
    intros [= <- <-]. destruct (cut_some _ _ _ _ Hcut) as (_ & -> & Horg).
    split; [reflexivity|exact Horg].
  - destruct (cut "@" rest) as [[l r]|]; discriminate.
Qed.

Lemma classify_email (token address : string) :
  classify token = Some (EmailToken address) -> address = token.
Proof.
  destruct token as [|a rest]; [discriminate|]. unfold classify.
  destruct (Ascii.eqb a "@").
  - destruct (cut "/" rest) as [[org slug]|]; discriminate.
  - destruct (cut "@" rest) as [[l r]|]; [|discriminate].
    intros [= <-]. reflexivity.
Qed.

(** The body of [expandteam] once its two slices are taken. *)
Lemma expandteam_slices (token org slug : string) (ctx : bool) :
  classify token = Some (TeamRef org slug) ->
  expandteam token ctx
  = match Organizations_ListTeams client ctx org with
    | inl err => Some (mkEffect [call_ListTeams org] [] (Some (Err err)))
    | inr teams =>
        let teamid := find_teamid slug teams in
        if teamid =? 0 then
          Some (mkEffect [call_ListTeams org] []
                  (Some (Err (errors_New
                     ("Failed to find team matching " +:+ slug)))))
        else
          match Organizations_ListTeamMembers client ctx teamid with
          | inl err =>
              Some (mkEffect [call_ListTeams org; call_ListTeamMembers teamid]
                      [] (Some (Err err)))
          | inr members =>
              Some (mkEffect [call_ListTeams org; call_ListTeamMembers teamid]
                      (go_fetchuser <$> members) None)
          end
    end.
Proof.
  intros Hclass. destruct (classify_team _ _ _ Hclass) as (-> & Horg).
  unfold expandteam.
  destruct (slices_of_team "@" org slug Horg eq_refl) as (_ & -> & ->).
  reflexivity.
Qed.

Lemma find_teamid_none (slug : string) (teams : list Team) :
  Forall (fun team => Slug team <> slug) teams -> find_teamid slug teams = 0.
Proof.
  induction 1 as [|team teams Hne _ IH]; simpl; [reflexivity|].
  destruct (String.eqb slug (Slug team)) eqn:Heq; [|exact IH].
  apply String.eqb_eq in Heq. congruence.
Qed.

Lemma find_teamid_first (slug : string) (before after : list Team)
    (team : Team) :
  Forall (fun t => Slug t <> slug) before -> Slug team = slug ->
  find_teamid slug (before ++ team :: after) = ID team.
Proof.
  intros Hbefore Hteam.
  induction Hbefore as [|t before Hne _ IH]; simpl.
  - rewrite Hteam, String.eqb_refl. reflexivity.
  - destruct (String.eqb slug (Slug t)) eqn:Heq; [|exact IH].
    apply String.eqb_eq in Heq. congruence.
Qed.

Lemma yield_fetchuser (name : string) :
  yield (go_fetchuser name)
  = [inl (call_UsersGet name);
     inr (match Users_Get client false name with
          | inl err => Err err
          | inr user => Data user
          end)].
Proof.
  rewrite yield_unfold. unfold deliver. simpl. unfold fetchuser.
  destruct (Users_Get client false name); reflexivity.
Qed.

Lemma yield_team (token org slug : string) :
  classify token = Some (TeamRef org slug) ->
  yield (go_expandowners token) = yield (go_expandteam token).
Proof.
  intros Hclass. rewrite yield_unfold at 1. unfold deliver. simpl.
  rewrite expandowners_dispatch, Hclass. simpl. apply app_nil_r.
Qed.

Lemma yield_members (members : list string) (found : list User) :
  Forall2 (fun name user => Users_Get client false name = inr user)
    members found ->
  users_of ((go_fetchuser <$> members) ≫= yield) = found
  /\ errors_of ((go_fetchuser <$> members) ≫= yield) = []
  /\ calls_of ((go_fetchuser <$> members) ≫= yield)
     = call_UsersGet <$> members.
Proof.
  induction 1 as [|name user members found Hget _ IH]; [repeat split|].
  rewrite fmap_cons, bind_cons, yield_fetchuser, Hget.
  destruct IH as (Hu & He & Hc).
  unfold users_of, errors_of, calls_of in *.
  rewrite !omap_app. csimpl. rewrite Hu, He, Hc. repeat split.
Qed.

(** C2, as the code has it.  For a team reference, [expandteam] lists the
    teams of the organisation and takes the [ID] of the first team whose
    slug is the slug of the token, compared byte by byte.  When no team
    has the slug, or when that [ID] is 0, it sends the error "Failed to
    find team matching" and starts nothing, so that the token gives no
    user.  When the [ID] is not 0 it lists the members of that team and
    starts exactly one [fetchuser] for each member; when the lookups of the
    members succeed, the token gives their users, one for each member. *)
Theorem team_expansion (token org slug : string) (ctx : bool)
    (teams : list Team) :
  classify token = Some (TeamRef org slug) ->
  Organizations_ListTeams client ctx org = inr teams ->
  let teamid := find_teamid slug teams in
  let team_not_found :=
    Err (errors_New ("Failed to find team matching " +:+ slug)) in
  expandowners token ctx = Some (mkEffect [] [go_expandteam token] None)
  /\ (Forall (fun team => Slug team <> slug) teams -> teamid = 0)
  /\ (forall before team after,
        teams = before ++ team :: after ->
        Forall (fun t => Slug t <> slug) before -> Slug team = slug ->
        teamid = ID team)
  /\ (teamid = 0 ->
        expandteam token ctx
        = Some (mkEffect [call_ListTeams org] [] (Some team_not_found))
        /\ (ctx = false ->
            yield (go_expandowners token)
            = [inl (call_ListTeams org); inr team_not_found]))
  /\ (forall members,
        teamid <> 0 ->
        Organizations_ListTeamMembers client ctx teamid = inr members ->
        expandteam token ctx
        = Some (mkEffect [call_ListTeams org; call_ListTeamMembers teamid]
                  (go_fetchuser <$> members) None)
        /\ forall found,
             ctx = false ->
             Forall2 (fun name user => Users_Get client false name = inr user)
               members found ->
             users_of (yield (go_expandowners token)) = found
             /\ errors_of (yield (go_expandowners token)) = []).
Proof.
  intros Hclass Hteams teamid team_not_found.
  pose proof (expandteam_slices _ _ _ ctx Hclass) as Hbody.
  rewrite Hteams in Hbody. cbv beta iota zeta in Hbody.
  fold teamid in Hbody.
  split; [|split; [|split; [|split]]].
  - rewrite expandowners_dispatch, Hclass. reflexivity.
  - apply find_teamid_none.
  - intros before team after ->. apply find_teamid_first.
  - intros Hzero. rewrite Hzero in Hbody. simpl in Hbody.
    split; [exact Hbody|]. intros ->.
    rewrite (yield_team _ _ _ Hclass), yield_unfold. unfold deliver.
    simpl. rewrite Hbody. reflexivity.
  - intros members Hnz Hmembers.
    rewrite (proj2 (Z.eqb_neq _ _) Hnz), Hmembers in Hbody.
    split; [exact Hbody|]. intros found -> Hfound.
    rewrite (yield_team _ _ _ Hclass), yield_unfold. unfold deliver.
    simpl. rewrite Hbody. simpl.
    destruct (yield_members _ _ Hfound) as (Hu & He & _).
    split; assumption.
Qed.

(** C6. For an email token, [finduseremail] has the token parsed and
    calls nothing.  When the token parses, it sends exactly one user, whose
    email is the [Address] that the parser gives for the token and whose
    other fields are nil; a rule with this one owner then makes [Match]
    return this one user and no error, with no call to the remote service
    in the whole run, and such a run there is.  When the token does not
    parse, it sends the error of the parser and no user, and [Match]
    returns this one error in the same way. *)
Theorem email_expansion (email : string) (ctx : bool) :
  classify email = Some (EmailToken email) ->
  expandowners email ctx = Some (mkEffect [] [go_finduseremail email] None)
  /\ (forall e, mail_ParseAddress email = inr e ->
        let user := mkUser None None (Some (addr_Address e)) in
        finduseremail email ctx = Some (mkEffect [] [] (Some (Data user)))
        /\ yield (go_expandowners email) = [inr (Data user)]
        /\ forall co path0,
             select_owners (patterns co) path0 = Some [email] ->
             (forall sched s us es,
                runs sched (Match co ctx path0) = Some s ->
                ctx_done s = false -> returned s = Some (us, es) ->
                us = [user] /\ es = [] /\ calls s = [])
             /\ exists sched s,
                  runs sched (Match co false path0) = Some s
                  /\ ctx_done s = false
                  /\ returned s = Some ([user], []) /\ calls s = [])
  /\ (forall err, mail_ParseAddress email = inl err ->
        finduseremail email ctx = Some (mkEffect [] [] (Some (Err err)))
        /\ yield (go_expandowners email) = [inr (Err err)]
        /\ forall co path0,
             select_owners (patterns co) path0 = Some [email] ->
             (forall sched s us es,
                runs sched (Match co ctx path0) = Some s ->
                ctx_done s = false -> returned s = Some (us, es) ->
                us = [] /\ es = [err] /\ calls s = [])
             /\ exists sched s,
                  runs sched (Match co false path0) = Some s
                  /\ ctx_done s = false
                  /\ returned s = Some ([], [err]) /\ calls s = []).
Proof.
  intros Hclass.
  assert (Hyield : yield (go_expandowners email)
                   = yield (go_finduseremail email)).
  { rewrite yield_unfold at 1. unfold deliver. simpl.
    rewrite expandowners_dispatch, Hclass. simpl. apply app_nil_r. }
  split; [rewrite expandowners_dispatch, Hclass; reflexivity|].
  split.
  - intros e Hparse user.
    assert (Hy : yield (go_expandowners email) = [inr (Data user)]).
    { rewrite Hyield, yield_unfold. unfold deliver. simpl.
      unfold finduseremail. rewrite Hparse. reflexivity. }
    split; [unfold finduseremail; rewrite Hparse; reflexivity|].
    split; [exact Hy|].
    intros co path0 Hsel.
    assert (Hall : forall ctx0 sched s us es,
              runs sched (Match co ctx0 path0) = Some s ->
              ctx_done s = false -> returned s = Some (us, es) ->
              us = [user] /\ es = [] /\ calls s = []).
    { intros ctx0 sched s us es Hruns Hdone Hret.
      destruct (complete_run _ _ _ _ _ _ _ _ Hsel Hruns Hdone Hret)
        as (Hu & He & Hc & _).
      unfold outcome in Hu, He, Hc. rewrite bind_cons, Hy in Hu, He, Hc.
      simpl in Hu, He, Hc.
      apply Permutation_singleton_r in Hu. apply Permutation_nil_r in He.
      apply Permutation_nil_r in Hc. auto. }
    split; [exact (Hall ctx)|].
    destruct (run_to_completion co false path0 _ [] _ Hsel eq_refl)
      as (sched & s & us & es & Hruns & Hdone & Hret & _).
    { rewrite (Match_some _ _ _ _ Hsel). reflexivity. }
    destruct (Hall false _ _ _ _ Hruns Hdone Hret) as (-> & -> & Hc).
    exists sched, s. auto.
  - intros err Hparse.
    assert (Hy : yield (go_expandowners email) = [inr (Err err)]).
    { rewrite Hyield, yield_unfold. unfold deliver. simpl.
      unfold finduseremail. rewrite Hparse. reflexivity. }
    split; [unfold finduseremail; rewrite Hparse; reflexivity|].
    split; [exact Hy|].
    intros co path0 Hsel.
    assert (Hall : forall ctx0 sched s us es,
              runs sched (Match co ctx0 path0) = Some s ->
              ctx_done s = false -> returned s = Some (us, es) ->
              us = [] /\ es = [err] /\ calls s = []).
    { intros ctx0 sched s us es Hruns Hdone Hret.
      destruct (complete_run _ _ _ _ _ _ _ _ Hsel Hruns Hdone Hret)
        as (Hu & He & Hc & _).
      unfold outcome in Hu, He, Hc. rewrite bind_cons, Hy in Hu, He, Hc.
      simpl in Hu, He, Hc.
      apply Permutation_nil_r in Hu. apply Permutation_singleton_r in He.
      apply Permutation_nil_r in Hc. auto. }
    split; [exact (Hall ctx)|].
    destruct (run_to_completion co false path0 _ [] _ Hsel eq_refl)
      as (sched & s & us & es & Hruns & Hdone & Hret & _).
    { rewrite (Match_some _ _ _ _ Hsel). reflexivity. }
    destruct (Hall false _ _ _ _ Hruns Hdone Hret) as (-> & -> & Hc).
    exists sched, s. auto.
Qed.

(** ** The file and its locations *)

Lemma fetch_files_found (ctx : bool) (owner0 repo0 : string)
    (before after : list string) (filepath : string) (err : option error)
    (content : RepositoryContent) :
  Forall (fun f => exists e,
            Repositories_GetContents client ctx owner0 repo0
              (f +:+ "CODEOWNERS") = inl e) before ->
  Repositories_GetContents client ctx owner0 repo0 (filepath +:+ "CODEOWNERS")
  = inr content ->
  fetch_files ctx owner0 repo0 (before ++ filepath :: after) err
  = GetContent content.
Proof.
  intros Hbefore Hfound. revert err.
  induction Hbefore as [|f before [e He] _ IH]; intros err; simpl.
  - rewrite Hfound. reflexivity.
  - rewrite He. apply IH.
Qed.

(** X1. [fetch] asks for the file at the root of the repository, then under
    [docs/], then under [.github/]: it returns what [GetContent] gives for
    the first of these locations for which the service answers, whatever
    the service would answer for the locations after it. *)
Theorem fetch_first_location (ctx : bool) (owner0 repo0 : string)
    (before after : list string) (filepath : string)
    (content : RepositoryContent) :
  [""; "docs/"; ".github/"] = before ++ filepath :: after ->
  Forall (fun f => exists e,
            Repositories_GetContents client ctx owner0 repo0
              (f +:+ "CODEOWNERS") = inl e) before ->
  Repositories_GetContents client ctx owner0 repo0 (filepath +:+ "CODEOWNERS")
  = inr content ->
  fetch ctx owner0 repo0 = GetContent content.
Proof.
  intros Hfiles Hbefore Hfound. unfold fetch. rewrite Hfiles.
  exact (fetch_files_found _ _ _ _ _ _ _ _ Hbefore Hfound).
Qed.

(** X2. When the service answers for none of the three locations, [fetch]
    returns the empty string with the error of the last location asked,
    [.github/CODEOWNERS]; [Get] then returns this error with a value that
    has no rule, on which [Match] reports "Failed to find match" for every
    path and starts nothing. *)
Theorem fetch_no_location (ctx : bool) (owner0 repo0 : string)
    (e1 e2 e3 : error) :
  Repositories_GetContents client ctx owner0 repo0 "CODEOWNERS" = inl e1 ->
  Repositories_GetContents client ctx owner0 repo0 "docs/CODEOWNERS"
  = inl e2 ->
  Repositories_GetContents client ctx owner0 repo0 ".github/CODEOWNERS"
  = inl e3 ->
  fetch ctx owner0 repo0 = ("", Some e3)
  /\ Get ctx owner0 repo0 = (mkCodeOwners owner0 repo0 [], Some e3)
  /\ forall ctx' path0,
       returned (Match (Get ctx owner0 repo0).1 ctx' path0)
       = Some ([], [not_found])
       /\ pool (Match (Get ctx owner0 repo0).1 ctx' path0) = [].
Proof.
  intros H1 H2 H3.
  assert (Hfetch : fetch ctx owner0 repo0 = ("", Some e3)).
  { change (Repositories_GetContents client ctx owner0 repo0
              ("" +:+ "CODEOWNERS") = inl e1) in H1.
    change (Repositories_GetContents client ctx owner0 repo0
              ("docs/" +:+ "CODEOWNERS") = inl e2) in H2.
    change (Repositories_GetContents client ctx owner0 repo0
              (".github/" +:+ "CODEOWNERS") = inl e3) in H3.
    unfold fetch, fetch_files. rewrite H1, H2, H3. reflexivity. }
  split; [exact Hfetch|].
  assert (Hget : Get ctx owner0 repo0 = (mkCodeOwners owner0 repo0 [], Some e3)).
  { unfold Get. rewrite Hfetch. reflexivity. }
  split; [exact Hget|]. intros ctx' path0. rewrite Hget. simpl.
  split; reflexivity.
Qed.

(** ** One token, a whole run *)

(** A run of [Match] on a rule with one owner, in which the context has not
    fired and [Match] has returned. *)
Lemma complete_run_single (co : codeOwners) (ctx : bool) (path0 : string)
    (token : string) (sched : list action) (s : state)
    (us : list User) (es : list error) :
  select_owners (patterns co) path0 = Some [token] ->
  runs sched (Match co ctx path0) = Some s ->
  ctx_done s = false ->
  returned s = Some (us, es) ->
  us ≡ₚ users_of (yield (go_expandowners token))
  /\ es ≡ₚ errors_of (yield (go_expandowners token))
  /\ calls s ≡ₚ calls_of (yield (go_expandowners token)).
Proof.
  intros Hsel Hruns Hdone Hret.
  destruct (complete_run _ _ _ _ _ _ _ _ Hsel Hruns Hdone Hret)
    as (Hu & He & Hc & _).
  unfold outcome in Hu, He, Hc. rewrite bind_cons in Hu, He, Hc.
  simpl in Hu, He, Hc. rewrite app_nil_r in Hu, He, Hc. auto.
Qed.

Lemma yield_handle (login : string) :
  cut "/" login = None ->
  yield (go_expandowners (String "@" login))
  = [inl (call_UsersGet login);
     inr (match Users_Get client false login with
          | inl err => Err err
          | inr user => Data user
          end)].
Proof.
  intros Hcut. rewrite yield_unfold. unfold deliver. simpl run.
  rewrite expandowners_dispatch. simpl classify. rewrite Hcut.
  simpl. rewrite app_nil_r. apply yield_fetchuser.
Qed.

(** X3. A token made of [@] and a login without slash makes [fetchuser] ask
    the service once for that login.  In every run of [Match] on a rule with
    this one owner that returns without the context having fired, exactly
    this one call has been made, and [Match] returns the user of the login
    and no error when the lookup succeeds, and no user and the error of the
    lookup, as it is, when it fails. *)
Theorem handle_expansion (login : string) (co : codeOwners) (ctx : bool)
    (path0 : string) (sched : list action) (s : state)
    (us : list User) (es : list error) :
  cut "/" login = None ->
  select_owners (patterns co) path0 = Some [String "@" login] ->
  runs sched (Match co ctx path0) = Some s ->
  ctx_done s = false ->
  returned s = Some (us, es) ->
  calls s = [call_UsersGet login]
  /\ match Users_Get client false login with
     | inr user => us = [user] /\ es = []
     | inl err => us = [] /\ es = [err]
     end.
Proof.
  intros Hcut Hsel Hruns Hdone Hret.
  destruct (complete_run_single _ _ _ _ _ _ _ _ Hsel Hruns Hdone Hret)
    as (Hu & He & Hc).
  rewrite (yield_handle _ Hcut) in Hu, He, Hc.
  destruct (Users_Get client false login) as [err|user]; simpl in Hu, He, Hc.
  - apply Permutation_nil_r in Hu. apply Permutation_singleton_r in He.
    apply Permutation_singleton_r in Hc. auto.
  - apply Permutation_singleton_r in Hu. apply Permutation_nil_r in He.
    apply Permutation_singleton_r in Hc. auto.
Qed.

Lemma yield_expandteam (token org slug : string) (e : effect) :
  classify token = Some (TeamRef org slug) ->
  expandteam token false = Some e ->
  yield (go_expandowners token)
  = (inl <$> eff_calls e)
    ++ match eff_send e with Some m => [inr m] | None => [] end
    ++ (eff_spawn e ≫= yield).
Proof.
  intros Hclass Hrun. rewrite (yield_team _ _ _ Hclass), yield_unfold.
  unfold deliver. simpl run. rewrite Hrun. reflexivity.
Qed.

(** X4. When the service fails to list the teams of the organisation,
    [expandteam] sends that error as it is, starts nothing and does not ask
    for the members of any team; when the team is found and the service
    fails to list its members, it sends that error and starts nothing.  In
    both cases a run of [Match] on a rule with this one owner that returns
    without the context having fired returns no user and this one error. *)
Theorem team_lookup_errors (token org slug : string) (co : codeOwners)
    (ctx : bool) (path0 : string) (sched : list action) (s : state)
    (us : list User) (es : list error) :
  classify token = Some (TeamRef org slug) ->
  select_owners (patterns co) path0 = Some [token] ->
  runs sched (Match co ctx path0) = Some s ->
  ctx_done s = false ->
  returned s = Some (us, es) ->
  (forall err,
      Organizations_ListTeams client false org = inl err ->
      expandteam token false
      = Some (mkEffect [call_ListTeams org] [] (Some (Err err)))
      /\ us = [] /\ es = [err] /\ calls s = [call_ListTeams org])
  /\ (forall teams err,
        Organizations_ListTeams client false org = inr teams ->
        find_teamid slug teams <> 0 ->
        Organizations_ListTeamMembers client false (find_teamid slug teams)
        = inl err ->
        expandteam token false
        = Some (mkEffect
                  [call_ListTeams org;
                   call_ListTeamMembers (find_teamid slug teams)]
                  [] (Some (Err err)))
        /\ us = [] /\ es = [err]).
Proof.
  intros Hclass Hsel Hruns Hdone Hret.
  destruct (complete_run_single _ _ _ _ _ _ _ _ Hsel Hruns Hdone Hret)
    as (Hu & He & Hc).
  pose proof (expandteam_slices _ _ _ false Hclass) as Hbody.
  split.
  - intros err Hteams. rewrite Hteams in Hbody.
    rewrite (yield_expandteam _ _ _ _ Hclass Hbody) in Hu, He, Hc.
    simpl in Hu, He, Hc.
    apply Permutation_nil_r in Hu. apply Permutation_singleton_r in He.
    apply Permutation_singleton_r in Hc. auto.
  - intros teams err Hteams Hnz Hmembers. rewrite Hteams in Hbody.
    cbv beta iota zeta in Hbody.
    rewrite (proj2 (Z.eqb_neq _ _) Hnz), Hmembers in Hbody.
    rewrite (yield_expandteam _ _ _ _ Hclass Hbody) in Hu, He, Hc.
    simpl in Hu, He, Hc.
    apply Permutation_nil_r in Hu. apply Permutation_singleton_r in He.
    auto.
Qed.

Lemma yield_fetchusers (members : list string) :
  users_of ((go_fetchuser <$> members) ≫= yield) = members_found members
  /\ errors_of ((go_fetchuser <$> members) ≫= yield) = members_failed members
  /\ calls_of ((go_fetchuser <$> members) ≫= yield)
     = call_UsersGet <$> members.
Proof.
  unfold members_found, members_failed.
  induction members as [|name members (Hu & He & Hc)]; [repeat split|].
  rewrite fmap_cons, bind_cons, yield_fetchuser.
  unfold users_of, errors_of, calls_of in *. rewrite !omap_app.
  csimpl. rewrite Hu, He, Hc.
  destruct (Users_Get client false name); repeat split.
Qed.

Lemma found_failed_length (members : list string) :
  (length (members_found members) + length (members_failed members))%nat
  = length members.
Proof.
  unfold members_found, members_failed.
  induction members as [|name members IH]; [reflexivity|]. csimpl.
  destruct (Users_Get client false name); csimpl; lia.
Qed.

(** X5. For a team that is found and whose members are listed, a run of
    [Match] on a rule with this one owner that returns without the context
    having fired returns, in some order, the users of the members whose
    lookup succeeds and the errors of the members whose lookup fails: a
    failed lookup takes nothing from the other members, users and errors
    together are as many as the members, and a team without members gives
    no user and no error.  The calls made are those for the teams, for the
    members and one for each member. *)
Theorem team_members_resolved (token org slug : string) (co : codeOwners)
    (ctx : bool) (path0 : string) (sched : list action) (s : state)
    (us : list User) (es : list error) (teams : list Team)
    (members : list string) :
  classify token = Some (TeamRef org slug) ->
  Organizations_ListTeams client false org = inr teams ->
  find_teamid slug teams <> 0 ->
  Organizations_ListTeamMembers client false (find_teamid slug teams)
  = inr members ->
  select_owners (patterns co) path0 = Some [token] ->
  runs sched (Match co ctx path0) = Some s ->
  ctx_done s = false ->
  returned s = Some (us, es) ->
  us ≡ₚ members_found members
  /\ es ≡ₚ members_failed members
  /\ (length us + length es)%nat = length members
  /\ (members = [] -> us = [] /\ es = [])
  /\ calls s ≡ₚ call_ListTeams org
                 :: call_ListTeamMembers (find_teamid slug teams)
                 :: (call_UsersGet <$> members).
Proof.
  intros Hclass Hteams Hnz Hmembers Hsel Hruns Hdone Hret.
  destruct (complete_run_single _ _ _ _ _ _ _ _ Hsel Hruns Hdone Hret)
    as (Hu & He & Hc).
  pose proof (expandteam_slices _ _ _ false Hclass) as Hbody.
  rewrite Hteams in Hbody. cbv beta iota zeta in Hbody.
  rewrite (proj2 (Z.eqb_neq _ _) Hnz), Hmembers in Hbody.
  rewrite (yield_expandteam _ _ _ _ Hclass Hbody) in Hu, He, Hc.
  simpl in Hu, He, Hc.
  destruct (yield_fetchusers members) as (Hyu & Hye & Hyc).
  unfold users_of, errors_of, calls_of in *.
  rewrite Hyu in Hu. rewrite Hye in He. rewrite Hyc in Hc.
  split; [exact Hu|]. split; [exact He|]. split; [|split; [|exact Hc]].
  - rewrite Hu, He. apply found_failed_length.
  - intros ->. simpl in Hu, He.
    apply Permutation_nil_r in Hu. apply Permutation_nil_r in He. auto.
Qed.

(** ** The calls to the service *)

Lemma calls_of_yield (token : string) :
  calls_of (yield (go_expandowners token)) = asked token.
Proof.
  unfold asked. destruct (classify token) as [[org slug|login|address]|] eqn:Hclass.
  - pose proof (expandteam_slices _ _ _ false Hclass) as Hbody.
    destruct (Organizations_ListTeams client false org) as [err|teams].
    + rewrite (yield_expandteam _ _ _ _ Hclass Hbody). reflexivity.
    + cbv beta iota zeta in Hbody.
      destruct (find_teamid slug teams =? 0).
      * rewrite (yield_expandteam _ _ _ _ Hclass Hbody). reflexivity.
      * destruct (Organizations_ListTeamMembers client false
                    (find_teamid slug teams)) as [err|members].
        -- rewrite (yield_expandteam _ _ _ _ Hclass Hbody). reflexivity.
        -- rewrite (yield_expandteam _ _ _ _ Hclass Hbody).
           destruct (yield_fetchusers members) as (_ & _ & Hc).
           cbn [eff_calls eff_send eff_spawn].
           unfold calls_of in *. rewrite !omap_app, Hc. reflexivity.
  - rewrite yield_unfold. unfold deliver. simpl run.
    rewrite expandowners_dispatch, Hclass. simpl.
    rewrite app_nil_r, yield_fetchuser. reflexivity.
  - rewrite yield_unfold. unfold deliver. simpl run.
    rewrite expandowners_dispatch, Hclass. simpl. rewrite app_nil_r.
    rewrite yield_unfold. unfold deliver. simpl run. unfold finduseremail.
    destruct (mail_ParseAddress address); reflexivity.
  - rewrite (yield_invalid _ Hclass). reflexivity.
Qed.

Lemma calls_of_outcome (owners0 : list string) :
  calls_of (outcome owners0) = owners0 ≫= asked.
Proof.
  unfold outcome. induction owners0 as [|token owners0 IH]; [reflexivity|].
  rewrite !bind_cons. unfold calls_of in *. rewrite omap_app, IH.
  f_equal. apply calls_of_yield.
Qed.

(** X6. While the context has not fired, the calls that a run of [Match]
    has made to the service are among those that the owner tokens of the
    rule ask for, each made at most as often as it is asked for: no call is
    made for an email address or for an invalid token, and none twice for a
    token.  When [Match] returns without the context having fired, all of
    them have been made. *)
Theorem calls_as_asked (co : codeOwners) (ctx : bool) (path0 : string)
    (owners0 : list string) (sched : list action) (s : state) :
  select_owners (patterns co) path0 = Some owners0 ->
  runs sched (Match co ctx path0) = Some s ->
  ctx_done s = false ->
  calls s ⊆+ owners0 ≫= asked
  /\ (length (calls s) <= length (owners0 ≫= asked))%nat
  /\ (returned s <> None -> calls s ≡ₚ owners0 ≫= asked).
Proof.
  intros Hsel Hruns Hdone. rewrite <- calls_of_outcome.
  destruct (partial_run _ _ _ _ _ _ Hsel Hruns Hdone) as (_ & _ & Hsub).
  split; [exact Hsub|]. split; [apply submseteq_length, Hsub|].
  intros Hret. destruct (returned s) as [[us es]|] eqn:Hr; [|congruence].
  destruct (complete_run _ _ _ _ _ _ _ _ Hsel Hruns Hdone Hr)
    as (_ & _ & Hc & _).
  exact Hc.
Qed.

(** ** The wait group *)

(** X7. In every state that a run of [Match] reaches, the counter of the
    wait group is the number of goroutines that have not yet called
    [Done]; the closer has woken up, and a channel is closed, only when no
    goroutine is left; [Match] has seen a channel closed only when it is
    closed; so that no goroutine is ever at a send on a closed channel, and
    [Done] never makes the counter negative. *)
Theorem wait_group_counts (co : codeOwners) (ctx : bool) (path0 : string)
    (owners0 : list string) (sched : list action) (s : state) :
  select_owners (patterns co) path0 = Some owners0 ->
  runs sched (Match co ctx path0) = Some s ->
  wait s = length (pool s)
  /\ (closing s <> Waiting -> pool s = [] /\ wait s = 0%nat)
  /\ (data_closed s = true -> data_chan_closed (closing s) = true)
  /\ (err_closed s = true -> closing s = ClosedBoth)
  /\ (forall i, exec (a_send_closed i) s = None)
  /\ (forall i s', exec (a_exit i) s = Some s' ->
        panicked s' = false /\ wait s' = length (pool s')
        /\ length (pool s') = (length (pool s) - 1)%nat).
Proof.
  intros Hsel Hruns.
  pose proof (runs_wf _ _ _ (Match_wf _ ctx _ _ Hsel) Hruns) as Hwf.
  split; [apply Hwf|]. split; [|split; [apply Hwf|split; [|split]]].
  - intros Hc. pose proof (wf_closing s Hwf Hc) as Hnil.
    split; [exact Hnil|]. rewrite (wf_wait s Hwf), Hnil. reflexivity.
  - intros He. pose proof (wf_err_closed s Hwf He) as H.
    destruct (closing s); try discriminate. reflexivity.
  - intros i. unfold exec. rewrite (wf_panicked s Hwf).
    destruct (pool s !! i) as [[t|m|]|] eqn:Hi; try reflexivity.
    destruct (wf_lookup _ _ _ Hwf Hi) as (Hc & _). rewrite Hc.
    destruct m; reflexivity.
  - intros i s' Hexec. pose proof (exec_wf _ _ _ Hwf Hexec) as Hwf'.
    split; [apply Hwf'|]. split; [apply Hwf'|].
    unfold exec in Hexec. rewrite (wf_panicked s Hwf) in Hexec.
    destruct (pool s !! i) as [[t|m|]|] eqn:Hi; try discriminate.
    destruct (wait s); [|injection Hexec as <-; simpl].
    + injection Hexec as <-. pose proof (wf_panicked _ Hwf'). discriminate.
    + apply length_delete. eauto.
Qed.

(** ** After the return *)

Lemma exec_sender_stays (a : action) (s s' : state) (m : msg) :
  returned s <> None -> Send m ∈ pool s ->
  exec a s = Some s' ->
  returned s' <> None /\ Send m ∈ pool s'.
Proof.
  intros Hret Hin Hexec.
  destruct a as [|i|i|i| | | |c];
    try (destruct (exec_frame _ _ _ Hexec ltac:(intros ?; discriminate))
           as (Hr & _); rewrite Hr; split; [exact Hret|]).
  - unfold exec in Hexec. repeat case_match; simplify_eq; exact Hin.
  - unfold exec in Hexec. destruct (panicked s); [discriminate|].
    destruct (pool s !! i) as [[t|m'|]|] eqn:Hi; try discriminate.
    destruct (run (ctx_done s) t) as [e|]; simplify_eq; simpl; [|exact Hin].
    apply elem_of_app. left.
    rewrite (insert_Permutation _ _ _ (after e) Hi). right.
    rewrite (delete_Permutation _ _ _ Hi) in Hin.
    apply elem_of_cons in Hin. destruct Hin as [Hin|Hin];
      [discriminate|exact Hin].
  - unfold exec in Hexec. destruct (panicked s); [discriminate|].
    destruct (pool s !! i) as [[t|m'|]|] eqn:Hi; try discriminate.
    destruct (wait s); simplify_eq; simpl; [exact Hin|].
    rewrite (delete_Permutation _ _ _ Hi) in Hin.
    apply elem_of_cons in Hin. destruct Hin as [Hin|Hin];
      [discriminate|exact Hin].
  - unfold exec in Hexec. repeat case_match; simplify_eq; exact Hin.
  - unfold exec in Hexec. repeat case_match; simplify_eq; exact Hin.
  - unfold exec in Hexec. repeat case_match; simplify_eq; exact Hin.
  - unfold exec in Hexec. repeat case_match; simplify_eq; exact Hin.
  - unfold exec in Hexec. destruct (panicked s); [discriminate|].
    destruct (returned s); [discriminate|congruence].
Qed.

(** X8. A goroutine that stands at its send when [Match] has returned stays
    there for ever: nothing receives from the channels any more.  So the
    counter of the wait group never comes back to 0, the closer never wakes
    up and the channels are never closed, however the program goes on. *)
Theorem senders_left_behind (co : codeOwners) (ctx : bool) (path0 : string)
    (owners0 : list string) (sched : list action) (s : state) (m : msg)
    (sched' : list action) (s' : state) :
  select_owners (patterns co) path0 = Some owners0 ->
  runs sched (Match co ctx path0) = Some s ->
  returned s <> None -> Send m ∈ pool s ->
  runs sched' s = Some s' ->
  Send m ∈ pool s' /\ wait s' <> 0%nat /\ closing s' = Waiting
  /\ returned s' = returned s.
Proof.
  intros Hsel Hruns Hret Hin Hruns'.
  pose proof (runs_wf _ _ _ (Match_wf _ ctx _ _ Hsel) Hruns) as Hwf.
  pose proof (runs_wf _ _ _ Hwf Hruns') as Hwf'.
  assert (Hstay : returned s' <> None /\ Send m ∈ pool s').
  { clear Hwf Hwf' Hruns. revert s Hret Hin Hruns'.
    induction sched' as [|a sched' IH]; simpl; intros s Hret Hin.
    - intros [= <-]. auto.
    - destruct (exec a s) as [s1|] eqn:Hexec; [|discriminate].
      destruct (exec_sender_stays _ _ _ _ Hret Hin Hexec) as [Hret1 Hin1].
      apply IH; assumption. }
  destruct Hstay as [_ Hin']. split; [exact Hin'|].
  apply list_elem_of_lookup in Hin'. destruct Hin' as [i Hi].
  destruct (wf_lookup _ _ _ Hwf' Hi) as (Hc & _ & Hwait & Hlt).
  split; [lia|]. split; [exact Hc|].
  destruct (returned s) as [r|] eqn:Hr; [|congruence].
  exact (runs_returned_stable _ _ _ _ Hr Hruns').
Qed.

(** ** Fields, lines, and the file written back *)

Lemma rev_app_rev_app (w t u : string) :
  String.rev_app (String.rev_app w t) u = String.rev_app t (w +:+ u).
Proof.
  revert t. induction w as [|a w IH]; intros t; simpl; [reflexivity|].
  rewrite IH. reflexivity.
Qed.

Lemma rev_rev_app (w : string) : String.rev (String.rev_app w "") = w.
Proof.
  unfold String.rev. rewrite rev_app_rev_app. simpl.
  induction w as [|a w IH]; [reflexivity|].
  change (String a (w +:+ "") = String a w). f_equal. exact IH.
Qed.

Lemma rev_app_not_empty (w t : string) :
  w <> "" \/ t <> "" -> String.rev_app w t <> "".
Proof.
  revert t. induction w as [|a w IH]; intros t; simpl.
  - intros [H|H]; [congruence|exact H].
  - intros _. apply IH. right. discriminate.
Qed.

Lemma append_empty_r (w : string) : w +:+ "" = w.
Proof.
  induction w as [|a w IH]; [reflexivity|].
  change (String a (w +:+ "") = String a w). f_equal. exact IH.
Qed.

Lemma append_assoc (u v w : string) : (u +:+ v) +:+ w = u +:+ v +:+ w.
Proof.
  induction u as [|a u IH]; [reflexivity|].
  change (String a ((u +:+ v) +:+ w) = String a (u +:+ v +:+ w)).
  f_equal. exact IH.
Qed.

Lemma rev_app_append (w t : string) :
  String.rev_app w t = String.rev_app w "" +:+ t.
Proof.
  revert t. induction w as [|a w IH]; intros t; [reflexivity|].
  simpl. rewrite (IH (String a t)), (IH (String a "")), append_assoc.
  reflexivity.
Qed.

Lemma prefix_empty (s : string) : String.prefix "" s = true.
Proof. destruct s; reflexivity. Qed.

(** A prefix of [u] is a prefix of [u] with more after it. *)
Lemma prefix_append (p u t : string) :
  String.prefix p u = true -> String.prefix p (u +:+ t) = true.
Proof.
  revert u. induction p as [|a p IH]; intros u; [intros _; apply prefix_empty|].
  destruct u as [|b u]; [discriminate|].
  change (String b u +:+ t) with (String b (u +:+ t)). simpl.
  destruct (ascii_dec a b); [apply IH|discriminate].
Qed.

(** A space cannot stand for a later byte of white space. *)
Lemma prefix_before_space (p u t : string) :
  forallb (fun c => negb (Ascii.eqb c " ")) (list_ascii_of_string p) = true ->
  String.prefix p (u +:+ String " " t) = String.prefix p u.
Proof.
  revert u. induction p as [|a p IH]; intros u Hp.
  - rewrite !prefix_empty. reflexivity.
  - simpl in Hp. apply andb_true_iff in Hp. destruct Hp as [Ha Hp].
    destruct u as [|b u].
    + simpl. destruct (ascii_dec a " ") as [->|_]; [discriminate|reflexivity].
    + change (String b u +:+ String " " t)
        with (String b (u +:+ String " " t)). simpl.
      destruct (ascii_dec a b); [apply IH; exact Hp|reflexivity].
Qed.

(** Every white space has a first byte, and no space after it. *)
Lemma spaces_shape (p : string) :
  p ∈ strings.spaces ->
  exists a p', p = String a p'
    /\ forallb (fun c => negb (Ascii.eqb c " ")) (list_ascii_of_string p')
       = true.
Proof.
  assert (Hall : Forall (fun p => exists a p', p = String a p'
                   /\ forallb (fun c => negb (Ascii.eqb c " "))
                        (list_ascii_of_string p') = true) strings.spaces).
  { unfold strings.spaces, strings.White_Space. rewrite Forall_fmap.
    repeat constructor; simpl; eexists _, _; split; reflexivity. }
  rewrite Forall_forall in Hall. apply Hall.
Qed.

(** No white space begins [s] when none of them is a prefix of [s]. *)
Lemma space_width_0 (s : string) :
  strings.space_width s = 0%nat
  <-> forall p, p ∈ strings.spaces -> String.prefix p s = false.
Proof.
  unfold strings.space_width.
  destruct (find (fun p => String.prefix p s) strings.spaces) as [p|] eqn:Hf.
  - apply find_some in Hf. destruct Hf as [Hin Hp].
    apply list_elem_of_In in Hin.
    destruct (spaces_shape _ Hin) as (a & p' & -> & _). split.
    + discriminate.
    + intros Hnone. rewrite (Hnone _ Hin) in Hp. discriminate.
  - split; [|reflexivity]. intros _ p Hin.
    exact (find_none _ _ Hf p (proj1 (list_elem_of_In _ _) Hin)).
Qed.

Lemma space_width_append (u t : string) :
  strings.space_width (u +:+ t) = 0%nat -> strings.space_width u = 0%nat.
Proof.
  rewrite !space_width_0. intros Hnone p Hin. specialize (Hnone p Hin).
  destruct (String.prefix p u) eqn:Hp; [|reflexivity].
  rewrite (prefix_append _ _ t Hp) in Hnone. discriminate.
Qed.

Lemma space_width_before_space (a : ascii) (u t : string) :
  strings.space_width (String a u) = 0%nat ->
  strings.space_width (String a u +:+ String " " t) = 0%nat.
Proof.
  rewrite !space_width_0. intros Hnone p Hin. specialize (Hnone p Hin).
  destruct (spaces_shape _ Hin) as (b & p' & -> & Hp').
  change (String a u +:+ String " " t) with (String a (u +:+ String " " t)).
  simpl in *. destruct (ascii_dec b a); [|reflexivity].
  rewrite (prefix_before_space _ _ _ Hp'). exact Hnone.
Qed.

Lemma space_width_space (rest : string) :
  strings.space_width (String " " rest) = 1%nat.
Proof. destruct rest; reflexivity. Qed.

Lemma space_width_line_feed (rest : string) :
  strings.space_width (String "010" rest) = 1%nat.
Proof. destruct rest; reflexivity. Qed.

Lemma spaceless_snoc (u : string) (c : ascii) (rest : string) :
  spaceless (u +:+ String c "") rest
  = spaceless u (String c rest)
    && (strings.space_width (String c rest) =? 0)%nat.
Proof.
  induction u as [|a u IH].
  - simpl. rewrite andb_true_r. reflexivity.
  - change (String a u +:+ String c "") with (String a (u +:+ String c "")).
    cbn [spaceless]. rewrite IH.
    change (String a (u +:+ String c "") +:+ rest)
      with (String a ((u +:+ String c "") +:+ rest)).
    rewrite append_assoc.
    change (String a u +:+ String c rest)
      with (String a (u +:+ String c rest)).
    change (String c "" +:+ rest) with (String c rest).
    rewrite andb_assoc. reflexivity.
Qed.

Lemma spaceless_alone (u rest : string) :
  spaceless u rest = true -> spaceless u "" = true.
Proof.
  induction u as [|a u IH]; [reflexivity|]. cbn [spaceless].
  intros [Ha Hu]%andb_true_iff. apply andb_true_iff.
  split; [|exact (IH Hu)]. apply Nat.eqb_eq in Ha. apply Nat.eqb_eq.
  rewrite append_empty_r. exact (space_width_append _ _ Ha).
Qed.

Lemma spaceless_before_space (u rest : string) :
  spaceless u "" = true -> spaceless u (String " " rest) = true.
Proof.
  induction u as [|a u IH]; [reflexivity|]. cbn [spaceless].
  intros [Ha Hu]%andb_true_iff. apply andb_true_iff.
  split; [|exact (IH Hu)]. apply Nat.eqb_eq in Ha. apply Nat.eqb_eq.
  rewrite append_empty_r in Ha. exact (space_width_before_space _ _ _ Ha).
Qed.

Lemma field_inv (w : string) :
  field w = true -> w <> "" /\ spaceless w "" = true.
Proof.
  unfold field. intros [Hne Hall]%andb_true_iff. split; [|exact Hall].
  intros ->. discriminate.
Qed.

(** Reading on after bytes at which no white space begins. *)
Lemma fields_go_word (w cur rest : string) :
  spaceless w rest = true ->
  strings.fields_go cur 0 (w +:+ rest)
  = strings.fields_go (String.rev_app w cur) 0 rest.
Proof.
  revert cur. induction w as [|a w IH]; intros cur; [reflexivity|].
  cbn [spaceless]. intros [Ha Hw]%andb_true_iff. apply Nat.eqb_eq in Ha.
  change (String a w +:+ rest) with (String a (w +:+ rest)) in *.
  cbn [strings.fields_go]. rewrite Ha. apply IH. exact Hw.
Qed.

Lemma fields_go_space (cur rest : string) :
  strings.fields_go cur 0 (String " " rest)
  = strings.emit cur ++ strings.fields_go "" 0 rest.
Proof. cbn [strings.fields_go]. rewrite space_width_space. reflexivity. Qed.

Lemma emit_rev_app (w : string) :
  w <> "" -> strings.emit (String.rev_app w "") = [w].
Proof.
  intros Hne. unfold strings.emit.
  destruct (String.rev_app w "") eqn:Hrev.
  - destruct (rev_app_not_empty w "" (or_introl Hne)). exact Hrev.
  - rewrite <- Hrev, rev_rev_app. reflexivity.
Qed.

(** The fields of fields joined by single spaces are these fields. *)
Lemma Fields_Join (ws : list string) :
  Forall (fun w => field w = true) ws ->
  strings.Fields (strings.Join ws " ") = ws.
Proof.
  unfold strings.Fields. induction 1 as [|w ws Hw Hws IH]; [reflexivity|].
  destruct (field_inv _ Hw) as [Hne Hall].
  destruct ws as [|w' ws].
  - simpl strings.Join. pose proof (fields_go_word w "" "" Hall) as Hgo.
    rewrite append_empty_r in Hgo. rewrite Hgo.
    cbn [strings.fields_go]. apply emit_rev_app. exact Hne.
  - change (strings.Join (w :: w' :: ws) " ")
      with (w +:+ String " " (strings.Join (w' :: ws) " ")).
    rewrite (fields_go_word _ _ _ (spaceless_before_space _ _ Hall)).
    rewrite fields_go_space, (emit_rev_app _ Hne), IH. reflexivity.
Qed.

(** Every field that [strings.Fields] gives is a field. *)
Lemma fields_go_fields (s cur : string) (inside : nat) :
  (inside = 0%nat /\ spaceless (String.rev cur) s = true) \/ cur = "" ->
  Forall (fun w => field w = true) (strings.fields_go cur inside s).
Proof.
  assert (Hemit : forall cur rest,
             spaceless (String.rev cur) rest = true ->
             Forall (fun w => field w = true) (strings.emit cur)).
  { intros c rest Hc. destruct c as [|a c]; [constructor|].
    constructor; [|constructor]. unfold field. apply andb_true_iff. split.
    - apply negb_true_iff, String.eqb_neq, rev_app_not_empty. left.
      discriminate.
    - exact (spaceless_alone _ _ Hc). }
  revert cur inside. induction s as [|c s IH]; intros cur inside Hcur.
  - cbn [strings.fields_go]. destruct Hcur as [[_ Hcur]| ->];
      [exact (Hemit _ _ Hcur)|constructor].
  - cbn [strings.fields_go]. destruct inside as [|n].
    + assert (Hsp : spaceless (String.rev cur) (String c s) = true)
        by (destruct Hcur as [[_ Hcur]| ->]; [exact Hcur|reflexivity]).
      destruct (strings.space_width (String c s)) as [|n] eqn:Hw.
      * apply IH. left. split; [reflexivity|].
        unfold String.rev in *. cbn [String.rev_app].
        rewrite rev_app_append, spaceless_snoc, Hsp, Hw. reflexivity.
      * apply Forall_app. split; [exact (Hemit _ _ Hsp)|].
        apply IH. right. reflexivity.
    + destruct Hcur as [[Hn _]| ->]; [discriminate|].
      apply IH. right. reflexivity.
Qed.

Lemma Fields_fields (s : string) :
  Forall (fun w => field w = true) (strings.Fields s).
Proof. apply fields_go_fields. right. reflexivity. Qed.

Lemma rule_of_line_ok (line : string) : Forall rule_ok (rule_of_line line).
Proof.
  unfold rule_of_line. pose proof (Fields_fields line) as Hf.
  destruct (strings.Fields line) as [|w0 [|w1 rest]]; try constructor;
    [|constructor].
  apply Forall_cons in Hf. destruct Hf as [Hw0 Hrest].
  unfold rule_ok. simpl. destruct (String.eqb w0 "*") eqn:Hstar.
  - split; [reflexivity|]. split; [discriminate|exact Hrest].
  - split; [exact Hw0|]. split; [|exact Hrest].
    apply String.eqb_neq. exact Hstar.
Qed.

(** X9. Every rule that [Get] stores has a pattern that is not empty, has
    no white space and is not the lone [*], and has owners that are not nil
    and not empty, each owner token being not empty and without white
    space. *)
Theorem Get_stores_fields (ctx : bool) (owner0 repo0 content : string) :
  fetch ctx owner0 repo0 = (content, None) ->
  Forall rule_ok (patterns (Get ctx owner0 repo0).1).
Proof.
  intros Hfetch. rewrite (Get_patterns _ _ _ _ Hfetch). simpl.
  apply Forall_forall. intros rule Hin.
  apply list_elem_of_bind in Hin. destruct Hin as (line & Hin & _).
  pose proof (rule_of_line_ok line) as Hok. rewrite Forall_forall in Hok.
  exact (Hok _ Hin).
Qed.

(** X10. On the rules that [Get] has stored, [Match] reports "Failed to
    find match" exactly when no rule matches the path.  As soon as a rule
    matches, there is a last rule that matches, it has one owner at least,
    and [Match] has not returned where its loop begins: it has started one
    [expandowners] for each owner of that rule, in their order, and nothing
    else, the wait group counts these goroutines, and the closer waits. *)
Theorem not_found_only_without_match (ctx : bool)
    (owner0 repo0 content : string) (ctx' : bool) (path0 : string) :
  fetch ctx owner0 repo0 = (content, None) ->
  let co := (Get ctx owner0 repo0).1 in
  (returned (Match co ctx' path0) = Some ([], [not_found])
   <-> Forall (fun rule => matches path0 rule = false) (patterns co))
  /\ (forall rule, rule ∈ patterns co -> matches path0 rule = true ->
        exists selected o os,
          last (filter (fun r => matches path0 r = true) (patterns co))
          = Some selected
          /\ owners selected = Some (o :: os)
          /\ returned (Match co ctx' path0) = None
          /\ pool (Match co ctx' path0)
             = (fun ownertext => Run (go_expandowners ownertext))
               <$> (o :: os)
          /\ wait (Match co ctx' path0) = length (o :: os)
          /\ closing (Match co ctx' path0) = Waiting
          /\ calls (Match co ctx' path0) = []).
Proof.
  intros Hfetch co.
  assert (Hok : Forall rule_ok (patterns co)).
  { unfold co. rewrite (Get_patterns _ _ _ _ Hfetch). simpl.
    apply Forall_forall. intros rule Hin.
    apply list_elem_of_bind in Hin. destruct Hin as (line & Hin & _).
    pose proof (rule_of_line_ok line) as Hline.
    rewrite Forall_forall in Hline. exact (Hline _ Hin). }
  assert (Hsome : forall rule, rule ∈ patterns co ->
                    matches path0 rule = true ->
                    exists selected o os,
                      last (filter (fun r => matches path0 r = true)
                              (patterns co)) = Some selected
                      /\ owners selected = Some (o :: os)
                      /\ select_owners (patterns co) path0
                         = Some (o :: os)).
  { intros rule Hin Hm. rewrite select_owners_last.
    destruct (last (filter (fun r => matches path0 r = true) (patterns co)))
      as [r|] eqn:Hlast.
    - pose proof Hlast as Hr. apply last_Some_elem_of in Hr.
      apply list_elem_of_filter in Hr. destruct Hr as [_ Hr].
      rewrite Forall_forall in Hok. destruct (Hok r Hr) as (_ & _ & Hown).
      simpl. destruct (owners r) as [[|o os]|] eqn:Ho; try contradiction.
      exists r, o, os. auto.
    - apply last_None in Hlast.
      assert (Hin' : rule ∈ filter (fun r => matches path0 r = true)
                              (patterns co))
        by (apply list_elem_of_filter; auto).
      rewrite Hlast in Hin'. inversion Hin'. }
  split; [split|].
  - intros Hret. apply Forall_forall. intros rule Hin.
    destruct (matches path0 rule) eqn:Hm; [|reflexivity].
    destruct (Hsome rule Hin Hm) as (r & o & os & _ & _ & Hsel).
    rewrite (Match_some _ _ _ _ Hsel) in Hret. discriminate.
  - intros Hnone. rewrite (Match_none _ _ _ (select_owners_none _ _ Hnone)).
    reflexivity.
  - intros rule Hin Hm.
    destruct (Hsome rule Hin Hm) as (r & o & os & Hlast & Ho & Hsel).
    exists r, o, os. rewrite (Match_some _ _ _ _ Hsel). simpl. auto 10.
Qed.

(** ** The file written back *)

Lemma split_byte_line (sep : ascii) (l cur rest : string) :
  forallb (fun c => negb (Ascii.eqb c sep)) (list_ascii_of_string l) = true ->
  strings.split_byte sep cur (l +:+ rest)
  = strings.split_byte sep (String.rev_app l cur) rest.
Proof.
  revert cur. induction l as [|a l IH]; intros cur; [reflexivity|].
  change (String a l +:+ rest) with (String a (l +:+ rest)). simpl.
  intros [Ha Hl]%andb_true_iff. apply negb_true_iff in Ha. rewrite Ha.
  apply IH. exact Hl.
Qed.

(** The lines of lines joined by the separator are these lines. *)
Lemma Split_Join (sep : ascii) (l : string) (lines : list string) :
  Forall (fun l => forallb (fun c => negb (Ascii.eqb c sep))
                     (list_ascii_of_string l) = true) (l :: lines) ->
  strings.Split (strings.Join (l :: lines) (String sep "")) sep = l :: lines.
Proof.
  unfold strings.Split. revert l.
  induction lines as [|l' lines IH]; intros l Hall.
  - apply Forall_inv in Hall. simpl strings.Join.
    pose proof (split_byte_line sep l "" "" Hall) as Hgo.
    rewrite append_empty_r in Hgo. rewrite Hgo. simpl.
    rewrite rev_rev_app. reflexivity.
  - apply Forall_cons in Hall. destruct Hall as [Hl Hrest].
    change (strings.Join (l :: l' :: lines) (String sep ""))
      with (l +:+ String sep (strings.Join (l' :: lines) (String sep ""))).
    rewrite (split_byte_line _ _ _ _ Hl).
    cbn [strings.split_byte].
    rewrite Ascii.eqb_refl, rev_rev_app, (IH l' Hrest). reflexivity.
Qed.

Lemma forallb_append (P : ascii -> bool) (u v : string) :
  forallb P (list_ascii_of_string (u +:+ v))
  = forallb P (list_ascii_of_string u) && forallb P (list_ascii_of_string v).
Proof.
  induction u as [|a u IH]; [reflexivity|].
  change (String a u +:+ v) with (String a (u +:+ v)). simpl.
  rewrite IH. destruct (P a); reflexivity.
Qed.

Lemma field_one_line (w : string) :
  field w = true ->
  forallb (fun c => negb (Ascii.eqb c "010")) (list_ascii_of_string w) = true.
Proof.
  intros Hw. destruct (field_inv _ Hw) as [_ Hall]. clear Hw.
  induction w as [|a w IH]; [reflexivity|]. cbn [spaceless] in Hall.
  apply andb_true_iff in Hall. destruct Hall as [Ha Hall].
  simpl. rewrite (IH Hall), andb_true_r. apply negb_true_iff.
  destruct (Ascii.eqb_spec a "010") as [->|_]; [|reflexivity].
  change (String "010" w +:+ "") with (String "010" (w +:+ "")) in Ha.
  rewrite space_width_line_feed in Ha. discriminate.
Qed.

Lemma Join_one_line (ws : list string) :
  Forall (fun w => field w = true) ws ->
  forallb (fun c => negb (Ascii.eqb c "010"))
    (list_ascii_of_string (strings.Join ws " ")) = true.
Proof.
  induction 1 as [|w ws Hw Hws IH]; [reflexivity|].
  destruct ws as [|w' ws]; [exact (field_one_line _ Hw)|].
  change (strings.Join (w :: w' :: ws) " ")
    with (w +:+ " " +:+ strings.Join (w' :: ws) " ").
  rewrite !forallb_append, (field_one_line _ Hw), IH. reflexivity.
Qed.

(** A rule that is written and read again. *)
Lemma rule_of_line_String (rule : codeOwner) :
  rule_ok rule ->
  rule_of_line (codeOwner_String rule) = [rule]
  /\ forallb (fun c => negb (Ascii.eqb c "010"))
       (list_ascii_of_string (codeOwner_String rule)) = true.
Proof.
  destruct rule as [p own]. unfold rule_ok, codeOwner_String. simpl.
  intros (Hp & Hstar & Hown). destruct own as [[|o os]|]; try contradiction.
  simpl default.
  change (p +:+ " " +:+ strings.Join (o :: os) " ")
    with (strings.Join (p :: o :: os) " ").
  assert (Hall : Forall (fun w => field w = true) (p :: o :: os))
    by (constructor; assumption).
  split; [|exact (Join_one_line _ Hall)].
  unfold rule_of_line. rewrite (Fields_Join _ Hall).
  apply String.eqb_neq in Hstar. rewrite Hstar. reflexivity.
Qed.

(** X11. Written by [String] and read again by [Get], rules come back as
    they were and in their order, when each of them has a path that is a
    word other than "*" and one owner at least, its owners being words: the
    text of the rules read is then the text that was written. *)
Theorem String_then_Get (co : codeOwners) (ctx : bool)
    (owner0 repo0 : string) :
  Forall rule_ok (patterns co) ->
  fetch ctx owner0 repo0 = (codeOwners_String co, None) ->
  patterns (Get ctx owner0 repo0).1 = patterns co
  /\ codeOwners_String (Get ctx owner0 repo0).1 = codeOwners_String co.
Proof.
  intros Hok Hfetch.
  assert (Hpat : patterns (Get ctx owner0 repo0).1 = patterns co).
  { rewrite (Get_patterns _ _ _ _ Hfetch). simpl. unfold codeOwners_String.
    destruct (patterns co) as [|rule rules] eqn:Hrules; [reflexivity|].
    rewrite fmap_cons, Split_Join.
    - rewrite <- fmap_cons. clear Hrules.
      induction Hok as [|r rs Hr _ IH]; [reflexivity|].
      rewrite fmap_cons, bind_cons, (proj1 (rule_of_line_String _ Hr)), IH.
      reflexivity.
    - rewrite <- fmap_cons. apply Forall_fmap.
      eapply Forall_impl; [exact Hok|].
      intros r Hr. exact (proj2 (rule_of_line_String _ Hr)). }
  split; [exact Hpat|]. unfold codeOwners_String. rewrite Hpat. reflexivity.
Qed.

(** ** The order of the result *)

Lemma run_handle (login : string) (ctx : bool) :
  cut "/" login = None ->
  run ctx (go_expandowners (String "@" login))
  = Some (mkEffect [] [go_fetchuser login] None).
Proof.
  intros Hcut. simpl run. rewrite expandowners_dispatch. simpl classify.
  rewrite Hcut. reflexivity.
Qed.

Lemma exec_run (i : nat) (s : state) (t : task) (e : effect) :
  panicked s = false ->
  pool s !! i = Some (Run t) ->
  run (ctx_done s) t = Some e ->
  exec (a_run i) s
  = Some (set_calls (calls s ++ eff_calls e)
            (set_pool (<[i := after e]> (pool s) ++ (Run <$> eff_spawn e))
               (wait s + length (eff_spawn e)) s)).
Proof.
  intros Hpanic Hpool Hrun. unfold exec. rewrite Hpanic, Hpool, Hrun.
  reflexivity.
Qed.

(** X12. The users come in the order in which the loop of [Match] receives
    them, which is not the order of the owners in the rule: on a rule
    with two logins that the service both knows, one run of [Match] returns
    the user of the first login first, and another the user of the second
    login first. *)
Theorem result_order_not_fixed (co : codeOwners) (path0 : string)
    (a b : string) (ua ub : User) :
  cut "/" a = None ->
  cut "/" b = None ->
  select_owners (patterns co) path0 = Some [String "@" a; String "@" b] ->
  Users_Get client false a = inr ua ->
  Users_Get client false b = inr ub ->
  (exists s, runs (two_owners false) (Match co false path0) = Some s
             /\ ctx_done s = false
             /\ returned s = Some ([ua; ub], []))
  /\ (exists s, runs (two_owners true) (Match co false path0) = Some s
                /\ ctx_done s = false
                /\ returned s = Some ([ub; ua], [])).
Proof.
  intros Ha Hb Hsel Hua Hub.
  rewrite (Match_some _ _ _ _ Hsel).
  pose proof (run_handle a false Ha) as Ra.
  pose proof (run_handle b false Hb) as Rb.
  assert (Rfa : run false (go_fetchuser a)
                = Some (mkEffect [call_UsersGet a] [] (Some (Data ua))))
    by (simpl; unfold fetchuser; rewrite Hua; reflexivity).
  assert (Rfb : run false (go_fetchuser b)
                = Some (mkEffect [call_UsersGet b] [] (Some (Data ub))))
    by (simpl; unfold fetchuser; rewrite Hub; reflexivity).
  assert (Hstart : forall rest,
            runs ([a_run 0%nat; a_run 1%nat; a_run 2%nat; a_run 3%nat]
                    ++ rest)
              (mkState false
                 [Run (go_expandowners (String "@" a));
                  Run (go_expandowners (String "@" b))]
                 2 Waiting [] [] false false [] None false)
            = runs rest
                (mkState false [Exit; Exit; Send (Data ua); Send (Data ub)]
                   4 Waiting [] [] false false
                   [call_UsersGet a; call_UsersGet b] None false)).
  { intros rest. rewrite runs_app. cbn [runs].
    erewrite exec_run; [|reflexivity|reflexivity|exact Ra].
    cbv beta iota.
    erewrite exec_run; [|reflexivity|reflexivity|exact Rb].
    cbv beta iota.
    erewrite exec_run; [|reflexivity|reflexivity|exact Rfa].
    cbv beta iota.
    erewrite exec_run; [|reflexivity|reflexivity|exact Rfb].
    reflexivity. }
  unfold two_owners. cbn [fmap list_fmap length].
  split.
  - exists (mkState false [] 0 ClosedBoth [ua; ub] [] true true
              [call_UsersGet a; call_UsersGet b] (Some ([ua; ub], [])) false).
    rewrite Hstart. repeat split.
  - exists (mkState false [] 0 ClosedBoth [ub; ua] [] true true
              [call_UsersGet a; call_UsersGet b] (Some ([ub; ua], [])) false).
    rewrite Hstart. repeat split.
Qed.

End Codeowners.

(** ** The errors of the matcher *)

Lemma select_owners_fst
    (m1 m2 : string -> string -> bool * option error)
    (rules : list codeOwner) (path0 : string) :
  (forall pattern, (m1 pattern path0).1 = (m2 pattern path0).1) ->
  select_owners m1 rules path0 = select_owners m2 rules path0.
Proof.
  intros Hfst. induction rules as [|rule rules IH] using rev_ind;
    [reflexivity|].
  rewrite !select_owners_snoc, IH. unfold matches. rewrite Hfst. reflexivity.
Qed.

(** C10. [Match] does not look at the error that the matcher returns: it is
    the same program for a matcher and for that matcher with its errors
    taken away.  A rule for which the matcher returns false together with
    an error counts as a rule that does not match, so that it can be left
    out of the file; and when the matcher does so for every rule, [Match]
    returns "Failed to find match", and no error of the matcher. *)
Theorem pattern_errors_swallowed
    (doublestar_Match : string -> string -> bool * option error)
    (co : codeOwners) (ctx : bool) (path0 : string) :
  Match doublestar_Match co ctx path0
  = Match (fun pattern name => ((doublestar_Match pattern name).1, None))
      co ctx path0
  /\ (forall before rule after err,
        patterns co = before ++ rule :: after ->
        doublestar_Match (path rule) path0 = (false, Some err) ->
        Match doublestar_Match co ctx path0
        = Match doublestar_Match
            (mkCodeOwners (owner co) (repo co) (before ++ after)) ctx path0)
  /\ (Forall (fun rule => exists err,
                doublestar_Match (path rule) path0 = (false, Some err))
        (patterns co) ->
      returned (Match doublestar_Match co ctx path0)
      = Some ([], [not_found])).
Proof.
  split; [|split].
  - unfold Match.
    rewrite (select_owners_fst doublestar_Match
               (fun pattern name => ((doublestar_Match pattern name).1, None)))
      by reflexivity.
    reflexivity.
  - intros before rule after err Hco Herr. unfold Match. simpl.
    rewrite Hco, select_owners_skip; [reflexivity|].
    unfold matches. rewrite Herr. reflexivity.
  - intros Hall. rewrite Match_none; [reflexivity|].
    apply select_owners_none. eapply Forall_impl; [exact Hall|].
    intros rule [err Herr]. unfold matches. rewrite Herr. reflexivity.
Qed.

(** ** The statements on the test data *)

Lemma last_match_wins_witness :
  let co := mkCodeOwners "example" "repo"
              [mkCodeOwner "**" (Some ["@a"]);
               mkCodeOwner "test/**" (Some ["@b"])] in
  last (filter (fun r => matches doublestar.Match "test/file.txt" r = true)
          (patterns co))
  = Some (mkCodeOwner "test/**" (Some ["@b"]))
  /\ select_owners doublestar.Match (patterns co) "test/file.txt"
     = Some ["@b"]
  /\ pool (Match doublestar.Match co false "test/file.txt")
     = [Run (go_expandowners "@b")].
Proof.
  intros co.
  assert (Hlast : last (filter (fun r => matches doublestar.Match
                                          "test/file.txt" r = true)
                          (patterns co))
                  = Some (mkCodeOwner "test/**" (Some ["@b"])))
    by reflexivity.
  split; [exact Hlast|].
  destruct (last_match_wins doublestar.Match co false "test/file.txt" _ Hlast)
    as [Hsel Hpool].
  split; [exact Hsel|]. exact (proj1 (Hpool _ eq_refl)).
Defined.

Lemma no_match_short_circuits_witness :
  let co := mkCodeOwners "example" "repo"
              [mkCodeOwner "docs/**" (Some ["@a"])] in
  Forall (fun rule => matches doublestar.Match "src/x.txt" rule = false)
    (patterns co)
  /\ returned (Match doublestar.Match co false "src/x.txt")
     = Some ([], [not_found]).
Proof.
  intros co.
  assert (Hnone : Forall (fun rule => matches doublestar.Match "src/x.txt"
                                        rule = false) (patterns co))
    by (repeat constructor).
  split; [exact Hnone|].
  exact (proj1 (proj1 (no_match_short_circuits
                         (testdata.testclient testdata.simple)
                         doublestar.Match mail.ParseAddress co false
                         "src/x.txt") Hnone)).
Defined.

Lemma root_wildcard_normalized_witness :
  let client := testdata.testclient testdata.simple in
  fetch client false "example" "repo" = (testdata.simple, None)
  /\ exists rule,
       rule ∈ patterns (Get client false "example" "repo").1
       /\ path rule = "**"
       /\ matches doublestar.Match "dir/sub/file.txt" rule = true.
Proof.
  intros client.
  assert (Hfetch : fetch client false "example" "repo"
                   = (testdata.simple, None)) by reflexivity.
  split; [exact Hfetch|].
  destruct (root_wildcard_normalized client doublestar.Match false
              "example" "repo" testdata.simple "* @juan" "*" ["@juan"]
              Hfetch ltac:(left) eq_refl ltac:(discriminate))
    as (rule & Hin & _ & Hstar & _).
  exists rule. split; [exact Hin|].
  destruct (Hstar eq_refl) as [Hpath Hmatch].
  split; [exact Hpath|].
  exact (proj1 (Hmatch "dir/sub/file.txt" eq_refl)).
Defined.

(** C9, as it is stated, fails on a file with a comment line of two fields
    or more: [Get] stores a rule for it. *)
Lemma comment_line_is_a_rule :
  ~ (forall (client : Client) (ctx : bool) (owner0 repo0 content : string),
       fetch client ctx owner0 repo0 = (content, None) ->
       patterns (Get client ctx owner0 repo0).1
       = rules_without_comments content).
Proof.
  intros Hclaim.
  specialize (Hclaim (testdata.testclient testdata.commented) false
                "example" "repo" testdata.commented eq_refl).
  vm_compute in Hclaim. discriminate.
Qed.

Lemma Get_rules_of_lines_witness :
  let client := testdata.testclient testdata.commented in
  fetch client false "example" "repo" = (testdata.commented, None)
  /\ patterns (Get client false "example" "repo").1
     = [mkCodeOwner "#" (Some ["owners"; "of"; "everything"]);
        mkCodeOwner "**" (Some ["@juan"])].
Proof.
  intros client.
  assert (Hfetch : fetch client false "example" "repo"
                   = (testdata.commented, None)) by reflexivity.
  split; [exact Hfetch|].
  rewrite (proj1 (Get_rules_of_lines client false "example" "repo"
                    testdata.commented Hfetch)).
  reflexivity.
Defined.

Lemma classification_witness :
  classify "@example/team" = Some (TeamRef "example" "team")
  /\ expandowners "@example/team" false
     = Some (mkEffect [] [go_expandteam "@example/team"] None)
  /\ slice "@example/team" 1 (strings.Index "@example/team" "/")
     = Some "example".
Proof.
  destruct (classification "@example/team" false) as (Hrun & Hteam & _).
  split; [reflexivity|]. split; [exact Hrun|].
  destruct (Hteam "example" "team" eq_refl) as (_ & _ & Horg & _).
  exact Horg.
Defined.

Lemma best_effort_witness :
  let client := testdata.testclient testdata.invalid_entry in
  let co := (Get client false "example" "repo").1 in
  let invalid :=
    errors_New
      "Do not understand user specification %!(EXTRA string=not-valid)" in
  let start := Match doublestar.Match co false "file.txt" in
  let run := drive client mail.ParseAddress 40 start in
  select_owners doublestar.Match (patterns co) "file.txt"
  = Some ["@juan"; "not-valid"]
  /\ runs client mail.ParseAddress run.1 start = Some run.2
  /\ ctx_done run.2 = false
  /\ returned run.2 = Some ([testdata.juan], [invalid])
  /\ forall sched s us es,
       runs client mail.ParseAddress sched start = Some s ->
       ctx_done s = false -> returned s = Some (us, es) ->
       us = [testdata.juan] /\ es = [invalid].
Proof.
  intros client co invalid start run.
  assert (Hsel : select_owners doublestar.Match (patterns co) "file.txt"
                 = Some ["@juan"; "not-valid"]) by reflexivity.
  assert (Hrun : runs client mail.ParseAddress run.1 start = Some run.2)
    by (vm_compute; reflexivity).
  assert (Hfalse : ctx_done run.2 = false) by (vm_compute; reflexivity).
  assert (Hjuan : returned run.2 = Some ([testdata.juan], [invalid]))
    by (vm_compute; reflexivity).
  split; [exact Hsel|]. split; [exact Hrun|]. split; [exact Hfalse|].
  split; [exact Hjuan|].
  intros sched s us es Hruns Hdone Hret.
  destruct (best_effort client doublestar.Match mail.ParseAddress co false
              "file.txt" _ Hsel) as (_ & _ & Hall).
  destruct (Hall sched s Hruns) as (_ & _ & Hreturned & _).
  destruct (Hreturned us es Hret) as (_ & _ & Hcomplete).
  destruct (Hcomplete Hdone) as [Hu He].
  change (users_of (outcome client mail.ParseAddress ["@juan"; "not-valid"]))
    with [testdata.juan] in Hu.
  change (errors_of (outcome client mail.ParseAddress ["@juan"; "not-valid"]))
    with [invalid] in He.
  apply Permutation_singleton_r in Hu. apply Permutation_singleton_r in He.
  split; assumption.
Defined.



(** C2, as it is stated, fails when the team that has the slug has the [ID]
    0: [expandteam] reports that it found no team. *)
Lemma team_with_id_zero :
  ~ (forall (client : Client) (token org slug : string) (ctx : bool)
            (teams before after : list Team) (team : Team)
            (members : list string),
       classify token = Some (TeamRef org slug) ->
       Organizations_ListTeams client ctx org = inr teams ->
       teams = before ++ team :: after ->
       Forall (fun t => Slug t <> slug) before -> Slug team = slug ->
       Organizations_ListTeamMembers client ctx (ID team) = inr members ->
       exists e,
         expandteam client token ctx = Some e
         /\ eff_spawn e = go_fetchuser <$> members
         /\ eff_send e = None).
Proof.
  intros Hclaim.
  destruct (Hclaim testdata.zeroclient "@org/team" "org" "team" false
              [mkTeam 0 "team"] [] [] (mkTeam 0 "team") ["alice"; "bob"]
              eq_refl eq_refl eq_refl ltac:(constructor) eq_refl eq_refl)
    as (e & Hrun & Hspawn & _).
  vm_compute in Hrun. injection Hrun as <-. discriminate.
Qed.

Lemma team_expansion_witness :
  let client := testdata.testclient testdata.team in
  classify "@example/team" = Some (TeamRef "example" "team")
  /\ Organizations_ListTeams client false "example"
     = inr [mkTeam 72 "team"; mkTeam 55 "long"]
  /\ expandteam client "@example/team" false
     = Some (mkEffect [call_ListTeams "example"; call_ListTeamMembers 72]
               [go_fetchuser "juan"; go_fetchuser "joe"] None)
  /\ users_of (yield client mail.ParseAddress (go_expandowners "@example/team"))
     = [testdata.juan; testdata.joe].
Proof.
  intros client. split; [reflexivity|]. split; [reflexivity|].
  destruct (team_expansion client mail.ParseAddress "@example/team"
              "example" "team" false [mkTeam 72 "team"; mkTeam 55 "long"]
              eq_refl eq_refl) as (_ & _ & _ & _ & Hfound).
  destruct (Hfound ["juan"; "joe"] ltac:(discriminate) eq_refl)
    as [Hrun Hyield].
  split; [exact Hrun|].
  refine (proj1 (Hyield [testdata.juan; testdata.joe] eq_refl _)).
  repeat constructor.
Defined.

(** C6, as it is stated, fails on a token in angle brackets: the email
    of the user is the address between the brackets, not the token. *)
Lemma email_is_not_the_token :
  ~ (forall (token : string) (e : Address) (ctx : bool),
       classify token = Some (EmailToken token) ->
       mail.ParseAddress token = inr e ->
       finduseremail mail.ParseAddress token ctx
       = Some (mkEffect [] []
                 (Some (Data (mkUser None None (Some token)))))).
Proof.
  intros Hclaim.
  specialize (Hclaim "<bob@example.com>" (mkAddress "" "bob@example.com")
                false eq_refl eq_refl).
  vm_compute in Hclaim. discriminate.
Qed.

Lemma email_expansion_witness :
  let client := testdata.testclient testdata.email in
  let user := mkUser None None (Some "owners@example.com") in
  let co := mkCodeOwners "example" "repo"
              [mkCodeOwner "**" (Some ["owners@example.com"])] in
  let start := Match doublestar.Match co false "file.txt" in
  let run := drive client mail.ParseAddress 20 start in
  classify "owners@example.com" = Some (EmailToken "owners@example.com")
  /\ mail.ParseAddress "owners@example.com"
     = inr (mkAddress "" "owners@example.com")
  /\ finduseremail mail.ParseAddress "owners@example.com" false
     = Some (mkEffect [] [] (Some (Data user)))
  /\ yield client mail.ParseAddress (go_expandowners "owners@example.com")
     = [inr (Data user)]
  /\ runs client mail.ParseAddress run.1 start = Some run.2
  /\ returned run.2 = Some ([user], [])
  /\ calls run.2 = [].
Proof.
  intros client user co start run.
  split; [reflexivity|]. split; [reflexivity|].
  destruct (email_expansion client doublestar.Match mail.ParseAddress
              "owners@example.com" false eq_refl) as (_ & Hparsed & _).
  destruct (Hparsed (mkAddress "" "owners@example.com") eq_refl)
    as (Hrun & Hyield & Hmatch).
  split; [exact Hrun|]. split; [exact Hyield|].
  assert (Hruns : runs client mail.ParseAddress run.1 start = Some run.2)
    by (vm_compute; reflexivity).
  assert (Hdone : ctx_done run.2 = false) by (vm_compute; reflexivity).
  assert (Hret : returned run.2 = Some ([user], []))
    by (vm_compute; reflexivity).
  split; [exact Hruns|]. split; [exact Hret|].
  destruct (Hmatch co "file.txt" eq_refl) as [Hall _].
  exact (proj2 (proj2 (Hall run.1 run.2 _ _ Hruns Hdone Hret))).
Defined.

Lemma pattern_errors_swallowed_witness :
  let client := testdata.testclient testdata.malformed in
  let co := (Get client false "example" "repo").1 in
  patterns co = [mkCodeOwner "[" (Some ["@juan"])]
  /\ doublestar.Match "[" "file.txt" = (false, Some doublestar.ErrBadPattern)
  /\ returned (Match doublestar.Match co false "file.txt")
     = Some ([], [not_found]).
Proof.
  intros client co. split; [reflexivity|]. split; [reflexivity|].
  refine (proj2 (proj2 (pattern_errors_swallowed doublestar.Match co false
                          "file.txt")) _).
  repeat constructor. exists doublestar.ErrBadPattern. reflexivity.
Defined.

(** ** Instances of the further properties *)

Lemma fetch_first_location_witness :
  let client := testdata.docsclient testdata.simple in
  Repositories_GetContents client false "example" "repo" "CODEOWNERS"
  = inl testdata.not_found
  /\ fetch client false "example" "repo" = (testdata.simple, None).
Proof.
  intros client. split; [reflexivity|].
  refine (fetch_first_location client false "example" "repo"
            [""] [".github/"] "docs/" (mkContent (testdata.simple, None))
            eq_refl _ eq_refl).
  constructor; [|constructor]. exists testdata.not_found. reflexivity.
Defined.

Lemma fetch_no_location_witness :
  fetch testdata.zeroclient false "example" "repo"
  = ("", Some testdata.not_found)
  /\ returned (Match doublestar.Match
                 (Get testdata.zeroclient false "example" "repo").1
                 false "file.txt")
     = Some ([], [not_found]).
Proof.
  destruct (fetch_no_location testdata.zeroclient doublestar.Match false
              "example" "repo" testdata.not_found testdata.not_found
              testdata.not_found eq_refl eq_refl eq_refl)
    as (Hfetch & _ & Hmatch).
  split; [exact Hfetch|]. exact (proj1 (Hmatch false "file.txt")).
Defined.

Lemma handle_expansion_witness :
  let client := testdata.testclient testdata.simple in
  let co := (Get client false "example" "repo").1 in
  let start := Match doublestar.Match co false "file.txt" in
  let run := drive client mail.ParseAddress 20 start in
  runs client mail.ParseAddress run.1 start = Some run.2
  /\ returned run.2 = Some ([testdata.juan], [])
  /\ calls run.2 = [call_UsersGet "juan"].
Proof.
  intros client co start run.
  assert (Hruns : runs client mail.ParseAddress run.1 start = Some run.2)
    by (vm_compute; reflexivity).
  assert (Hdone : ctx_done run.2 = false) by (vm_compute; reflexivity).
  assert (Hret : returned run.2 = Some ([testdata.juan], []))
    by (vm_compute; reflexivity).
  split; [exact Hruns|]. split; [exact Hret|].
  exact (proj1 (handle_expansion client doublestar.Match mail.ParseAddress
                  "juan" co false "file.txt" run.1 run.2 _ _
                  eq_refl eq_refl Hruns Hdone Hret)).
Defined.

Lemma team_lookup_errors_witness :
  let client := testdata.testclient testdata.simple in
  let co := mkCodeOwners "example" "repo"
              [mkCodeOwner "**" (Some ["@example/long"])] in
  let start := Match doublestar.Match co false "file.txt" in
  let run := drive client mail.ParseAddress 20 start in
  runs client mail.ParseAddress run.1 start = Some run.2
  /\ returned run.2 = Some ([], [testdata.not_found])
  /\ expandteam client "@example/long" false
     = Some (mkEffect [call_ListTeams "example"; call_ListTeamMembers 55]
               [] (Some (Err testdata.not_found))).
Proof.
  intros client co start run.
  assert (Hruns : runs client mail.ParseAddress run.1 start = Some run.2)
    by (vm_compute; reflexivity).
  assert (Hdone : ctx_done run.2 = false) by (vm_compute; reflexivity).
  assert (Hret : returned run.2 = Some ([], [testdata.not_found]))
    by (vm_compute; reflexivity).
  split; [exact Hruns|]. split; [exact Hret|].
  destruct (team_lookup_errors client doublestar.Match mail.ParseAddress
              "@example/long" "example" "long" co false "file.txt"
              run.1 run.2 _ _ eq_refl eq_refl Hruns Hdone Hret)
    as [_ Hmembers].
  refine (proj1 (Hmembers [mkTeam 72 "team"; mkTeam 55 "long"]
                   testdata.not_found eq_refl _ eq_refl)).
  vm_compute. discriminate.
Defined.

Lemma team_members_resolved_witness :
  let client := testdata.ghostclient in
  let co := mkCodeOwners "example" "repo"
              [mkCodeOwner "**" (Some ["@org/team"])] in
  let start := Match doublestar.Match co false "file.txt" in
  let run := drive client mail.ParseAddress 30 start in
  runs client mail.ParseAddress run.1 start = Some run.2
  /\ returned run.2 = Some ([testdata.juan], [testdata.not_found])
  /\ calls run.2 ≡ₚ [call_ListTeams "org"; call_ListTeamMembers 72;
                     call_UsersGet "ghost"; call_UsersGet "juan"].
Proof.
  intros client co start run.
  assert (Hruns : runs client mail.ParseAddress run.1 start = Some run.2)
    by (vm_compute; reflexivity).
  assert (Hdone : ctx_done run.2 = false) by (vm_compute; reflexivity).
  assert (Hret : returned run.2
                 = Some ([testdata.juan], [testdata.not_found]))
    by (vm_compute; reflexivity).
  split; [exact Hruns|]. split; [exact Hret|].
  refine (proj2 (proj2 (proj2 (proj2
            (team_members_resolved client doublestar.Match mail.ParseAddress
               "@org/team" "org" "team" co false "file.txt" run.1 run.2 _ _
               [mkTeam 72 "team"] ["ghost"; "juan"]
               eq_refl eq_refl _ eq_refl eq_refl Hruns Hdone Hret))))).
  vm_compute. discriminate.
Defined.

Lemma calls_as_asked_witness :
  let client := testdata.testclient testdata.simple in
  let co := mkCodeOwners "example" "repo"
              [mkCodeOwner "**"
                 (Some ["@juan"; "not-valid"; "everyone@example.com"])] in
  let start := Match doublestar.Match co false "file.txt" in
  let run := drive client mail.ParseAddress 40 start in
  runs client mail.ParseAddress run.1 start = Some run.2
  /\ returned run.2 <> None
  /\ calls run.2 ≡ₚ [call_UsersGet "juan"].
Proof.
  intros client co start run.
  assert (Hruns : runs client mail.ParseAddress run.1 start = Some run.2)
    by (vm_compute; reflexivity).
  assert (Hdone : ctx_done run.2 = false) by (vm_compute; reflexivity).
  assert (Hret : returned run.2 <> None) by (vm_compute; discriminate).
  split; [exact Hruns|]. split; [exact Hret|].
  exact (proj2 (proj2
           (calls_as_asked client doublestar.Match mail.ParseAddress co
              false "file.txt" _ run.1 run.2 eq_refl Hruns Hdone)) Hret).
Defined.

Lemma wait_group_counts_witness :
  let client := testdata.testclient testdata.team in
  let co := (Get client false "example" "repo").1 in
  let s := mkState false
             [Exit; Exit; Run (go_fetchuser "juan"); Run (go_fetchuser "joe")]
             4 Waiting [] [] false false
             [call_ListTeams "example"; call_ListTeamMembers 72] None false in
  runs client mail.ParseAddress [a_run 0%nat; a_run 1%nat]
    (Match doublestar.Match co false "file.txt") = Some s
  /\ wait s = length (pool s)
  /\ forall i, exec client mail.ParseAddress (a_send_closed i) s = None.
Proof.
  intros client co s.
  assert (Hruns : runs client mail.ParseAddress [a_run 0%nat; a_run 1%nat]
                    (Match doublestar.Match co false "file.txt") = Some s)
    by (vm_compute; reflexivity).
  split; [exact Hruns|].
  destruct (wait_group_counts client doublestar.Match mail.ParseAddress co
              false "file.txt" _ _ s eq_refl Hruns)
    as (Hwait & _ & _ & _ & Hsend & _).
  split; [exact Hwait|exact Hsend].
Defined.

Lemma senders_left_behind_witness :
  let client := testdata.testclient testdata.simple in
  let co := (Get client false "example" "repo").1 in
  let s := mkState true [Exit; Send (Data testdata.juan)] 2 Waiting [] []
             false false [call_UsersGet "juan"] (Some ([], [])) false in
  let s' := mkState true [Send (Data testdata.juan)] 1 Waiting [] []
              false false [call_UsersGet "juan"] (Some ([], [])) false in
  runs client mail.ParseAddress
    [a_run 0%nat; a_run 1%nat; a_cancel; a_loop on_done]
    (Match doublestar.Match co false "file.txt") = Some s
  /\ runs client mail.ParseAddress [a_exit 0%nat] s = Some s'
  /\ Send (Data testdata.juan) ∈ pool s'
  /\ wait s' <> 0%nat.
Proof.
  intros client co s s'.
  assert (Hruns : runs client mail.ParseAddress
                    [a_run 0%nat; a_run 1%nat; a_cancel; a_loop on_done]
                    (Match doublestar.Match co false "file.txt") = Some s)
    by (vm_compute; reflexivity).
  assert (Hruns' : runs client mail.ParseAddress [a_exit 0%nat] s = Some s')
    by (vm_compute; reflexivity).
  split; [exact Hruns|]. split; [exact Hruns'|].
  destruct (senders_left_behind client doublestar.Match mail.ParseAddress
              co false "file.txt" _ _ s (Data testdata.juan) _ s'
              eq_refl Hruns ltac:(discriminate)
              ltac:(do 2 constructor) Hruns')
    as (Hin & Hwait & _).
  split; [exact Hin|exact Hwait].
Defined.

Lemma Get_stores_fields_witness :
  let client := testdata.testclient testdata.commented in
  fetch client false "example" "repo" = (testdata.commented, None)
  /\ Forall rule_ok (patterns (Get client false "example" "repo").1).
Proof.
  intros client.
  assert (Hfetch : fetch client false "example" "repo"
                   = (testdata.commented, None)) by reflexivity.
  split; [exact Hfetch|].
  exact (Get_stores_fields client false "example" "repo" testdata.commented
           Hfetch).
Defined.

Lemma not_found_only_without_match_witness :
  let client := testdata.testclient testdata.two in
  let co := (Get client false "example" "repo").1 in
  fetch client false "example" "repo" = (testdata.two, None)
  /\ matches doublestar.Match "test/file.txt"
       (mkCodeOwner "test/**" (Some ["@joe"])) = true
  /\ returned (Match doublestar.Match co false "test/file.txt") = None
  /\ pool (Match doublestar.Match co false "test/file.txt")
     = [Run (go_expandowners "@joe")].
Proof.
  intros client co.
  assert (Hfetch : fetch client false "example" "repo"
                   = (testdata.two, None)) by reflexivity.
  assert (Hm : matches doublestar.Match "test/file.txt"
                 (mkCodeOwner "test/**" (Some ["@joe"])) = true)
    by reflexivity.
  split; [exact Hfetch|]. split; [exact Hm|].
  destruct (not_found_only_without_match client doublestar.Match false
              "example" "repo" testdata.two false "test/file.txt" Hfetch)
    as [_ Hsome].
  destruct (Hsome (mkCodeOwner "test/**" (Some ["@joe"]))
              ltac:(do 2 constructor) Hm)
    as (selected & o & os & Hlast & Ho & Hret & Hpool & _).
  split; [exact Hret|].
  vm_compute in Hlast. injection Hlast as <-. injection Ho as <- <-.
  exact Hpool.
Defined.

Lemma String_then_Get_witness :
  let co := mkCodeOwners "example" "repo"
              [mkCodeOwner "**" (Some ["@jon"; "@example/bills"]);
               mkCodeOwner "other.txt" (Some ["@jon"; "@example/bills"])] in
  let client := testdata.testclient (codeOwners_String co) in
  Forall rule_ok (patterns co)
  /\ fetch client false "example" "repo" = (codeOwners_String co, None)
  /\ patterns (Get client false "example" "repo").1 = patterns co.
Proof.
  intros co client.
  assert (Hok : Forall rule_ok (patterns co)).
  { repeat constructor; discriminate. }
  assert (Hfetch : fetch client false "example" "repo"
                   = (codeOwners_String co, None)) by reflexivity.
  split; [exact Hok|]. split; [exact Hfetch|].
  exact (proj1 (String_then_Get client co false "example" "repo"
                  Hok Hfetch)).
Defined.

Lemma result_order_not_fixed_witness :
  let client := testdata.testclient testdata.simple in
  let co := mkCodeOwners "example" "repo"
              [mkCodeOwner "**" (Some ["@juan"; "@joe"])] in
  let start := Match doublestar.Match co false "file.txt" in
  (exists s, runs client mail.ParseAddress (two_owners false) start = Some s
             /\ returned s = Some ([testdata.juan; testdata.joe], []))
  /\ (exists s, runs client mail.ParseAddress (two_owners true) start = Some s
                /\ returned s = Some ([testdata.joe; testdata.juan], [])).
Proof.
  intros client co start.
  destruct (result_order_not_fixed client doublestar.Match mail.ParseAddress
              co "file.txt" "juan" "joe" testdata.juan testdata.joe
              eq_refl eq_refl eq_refl eq_refl eq_refl)
    as [(s1 & Hruns1 & _ & Hret1) (s2 & Hruns2 & _ & Hret2)].
  split; [exists s1|exists s2]; split; assumption.
Defined.

(** ** The fields of a line *)

(** The white space of a line is that of [unicode.IsSpace]: a no-break
    space (U+00A0) and an ideographic space (U+3000) part fields as a
    space does, and bytes that are not valid UTF-8 part nothing. *)
Example Fields_unicode_space :
  strings.Fields ("x" +:+ strings.EncodeRune 0xA0 +:+ "@juan"
                  +:+ strings.EncodeRune 0x3000 +:+ "@joe")
  = ["x"; "@juan"; "@joe"]
  /\ strings.Fields (String "226" (String "128" " a"))
     = [String "226" (String "128" ""); "a"].
Proof. split; reflexivity. Qed.

(** ** The tests of the package *)

(** TestCodeOwnerString *)
Example TestCodeOwnerString :
  codeOwner_String (mkCodeOwner "*" (Some ["@jon"; "@bill"]))
  = "* @jon @bill".
Proof. reflexivity. Qed.

(** TestCodeOwnersString *)
Example TestCodeOwnersString :
  codeOwners_String
    (mkCodeOwners "" ""
       [mkCodeOwner "*" (Some ["@jon"; "@example/bills"]);
        mkCodeOwner "other.txt" (Some ["@jon"; "@example/bills"])])
  = "* @jon @example/bills" +:+ testdata.nl
    +:+ "other.txt @jon @example/bills".
Proof. reflexivity. Qed.

(** TestSubDirectoryOther, on the file [two]: the scheduler [next] makes
    [Match] return joe for [test/file.txt]. *)
Example TestSubDirectoryOther :
  let client := testdata.testclient testdata.two in
  let co := (Get client false "example" "repo").1 in
  returned (drive client mail.ParseAddress 20
              (Match doublestar.Match co false "test/file.txt")).2
  = Some ([testdata.joe], []).
Proof. vm_compute. reflexivity. Qed.

(** TestDefaultEntries, on the file [team]: both members of the team. *)
Example TestDefaultEntries_team :
  let client := testdata.testclient testdata.team in
  let co := (Get client false "example" "repo").1 in
  returned (drive client mail.ParseAddress 30
              (Match doublestar.Match co false "*")).2
  = Some ([testdata.juan; testdata.joe], []).
Proof. vm_compute. reflexivity. Qed.
